(** * trafaret.extras: the field-group key [KeysSubset] and the documentation
    walker [trafaret_parse].

    Shallow embedding of [src/trafaret/extras.py].  Python dictionaries are
    association lists in insertion order (a key is bound once; re-binding it
    keeps its position and replaces its value), generators are the finite
    trace of what they yield together with the way they stop, and exceptions
    are explicit results. *)

From Stdlib Require Import List String Ascii ZArith Bool Lia.
From Stdlib Require Import DecimalString.
Import ListNotations.
Set Warnings "-register-all".
Local Open Scope list_scope.
Local Open Scope string_scope.

(** [x in names] for a list of strings *)
Definition is_in (x : string) (names : list string) : bool :=
  existsb (String.eqb x) names.

(** ** Python dictionaries with string keys *)

Module PyDict.

Section Ops.
Context {V : Type}.

Definition t := list (string * V).

(** [k in d] *)
Fixpoint mem (d : t) (k : string) : bool :=
  match d with
  | [] => false
  | (k', _) :: d' => if String.eqb k' k then true else mem d' k
  end.

(** [d[k]], [None] when the key is absent *)
Fixpoint get (d : t) (k : string) : option V :=
  match d with
  | [] => None
  | (k', v) :: d' => if String.eqb k' k then Some v else get d' k
  end.

(** [d[k] = v] *)
Fixpoint set (d : t) (k : string) (v : V) : t :=
  match d with
  | [] => [(k, v)]
  | (k', v') :: d' =>
      if String.eqb k' k then (k', v) :: d' else (k', v') :: set d' k v
  end.

(** [d.update(other)] *)
Definition update (d other : t) : t :=
  fold_left (fun acc kv => set acc (fst kv) (snd kv)) other d.

(** [dict(pairs)] *)
Definition of_pairs (pairs : list (string * V)) : t := update [] pairs.

Definition keys (d : t) : list string := map fst d.

End Ops.

Arguments t : clear implicits.

End PyDict.

(** ** The field-group key: [class KeysSubset(Key)] *)

Module FieldGroup.

(** Python values the key handles.  [VDataError e] is a [DataError] object
    whose [error] attribute is [e]: a message for a leaf failure, a
    dictionary from field name to failure for a structured one. *)
Inductive value : Type :=
| VNone
| VBool (b : bool)
| VInt (z : Z)
| VStr (s : string)
| VList (l : list value)
| VDict (d : list (string * value))
| VDataError (error : value).

Inductive exn : Type :=
| AttributeError.

(** The validators as far as [keys_names] looks at them: a [Dict] with its
    keys, the default [Any()], or another validator (named by a tag).  A key
    of a [Dict] is a plain [Key] or a [KeysSubset]. *)
Inductive trafaret : Type :=
| Any
| Dict (dkeys : list key)
| Other (tag : string)
with key : Type :=
| Key (kname : string)
| Subset (ks : KeysSubset)
with KeysSubset : Type :=
| Build_KeysSubset (_keys : list string) (_name : string) (_trafaret : trafaret).

Definition keys (self : KeysSubset) : list string :=
  match self with Build_KeysSubset k _ _ => k end.

Definition name (self : KeysSubset) : string :=
  match self with Build_KeysSubset _ n _ => n end.

Definition inner (self : KeysSubset) : trafaret :=
  match self with Build_KeysSubset _ _ t => t end.

(** [KeysSubset.__init__(self, *keys)] *)
Definition __init__ (keys : list string) : KeysSubset :=
  Build_KeysSubset keys ("[" ++ String.concat ", " keys ++ "]") Any.

(** What the enclosing [Dict] does with a key it is built from: it stores the
    inner validator on it. *)
Definition set_trafaret (self : KeysSubset) (t : trafaret) : KeysSubset :=
  Build_KeysSubset (keys self) (name self) t.

(** Modelled from the spec: [Dict.keys_names] and [Key.keys_names] are not in
    the source file.  A Record yields the names of its keys in declaration
    order; a plain field descriptor stands for its own name, a field-group
    key for the names of its own [keys_names()]. *)
Definition Dict_keys_names (key_keys_names : key -> list string)
    (dkeys : list key) : list string :=
  flat_map key_keys_names dkeys.

(** [KeysSubset.keys_names(self)]: the names the generator yields. *)
Fixpoint keys_names (self : KeysSubset) : list string :=
  match self with
  | Build_KeysSubset keys _ tr =>
      (match tr with
       | Dict dkeys =>
           Dict_keys_names
             (fun k => match k with
                       | Key n => [n]
                       | Subset ks => keys_names ks
                       end) dkeys
       | _ => []
       end ++ keys)%list
  end.

Definition key_keys_names (k : key) : list string :=
  match k with
  | Key n => [n]
  | Subset ks => keys_names ks
  end.

(** A generator object returned by [keys_names()], not yet iterated; it is
    described by the names it yields when first iterated. *)
Record generator : Type := { pending : list string }.

(** What a generator function does when drained: the items it yields, and
    then either its normal end or the exception that stops it. *)
Record trace (A : Type) : Type :=
  { yielded : list A; raised : option exn }.
Arguments yielded {A}.
Arguments raised {A}.
Arguments Build_trace {A}.

Definition triple : Type := string * value * generator.

(** [data.get(k)] *)
Definition data_get (data : PyDict.t value) (k : string) : value :=
  match PyDict.get data k with
  | Some v => v
  | None => VNone
  end.

(** [dict((k, data.get(k)) for k in self.keys_names() if k in data)] *)
Definition subdict (self : KeysSubset) (data : PyDict.t value) : PyDict.t value :=
  PyDict.of_pairs
    (map (fun k => (k, data_get data k))
         (filter (fun k => PyDict.mem data k) (keys_names self))).

(** [isinstance(v, DataError)] *)
Definition is_DataError (v : value) : bool :=
  match v with
  | VDataError _ => true
  | _ => false
  end.

(** [e if isinstance(e, DataError) else DataError(e)] *)
Definition normalize (e : value) : value :=
  if is_DataError e then e else VDataError e.

Section Call.

(** [catch_error(checker, data)] is not in the source file: it runs the
    checker and returns its result, or the [DataError] it raised. *)
Variable catch_error : trafaret -> value -> value.

(** [KeysSubset.__call__(self, data)], drained. *)
Definition __call__ (self : KeysSubset) (data : PyDict.t value) : trace triple :=
  let subdict := subdict self data in
  let keys_names := {| pending := keys_names self |} in
  let res := catch_error (inner self) (VDict subdict) in
  match res with
  | VDataError error =>
      match error with
      | VDict items =>
          Build_trace
            (map (fun ke => (fst ke, normalize (snd ke), keys_names)) items) None
      | _ => Build_trace [] (Some AttributeError)
      end
  | VDict items =>
      Build_trace (map (fun kv => (fst kv, snd kv, keys_names)) items) None
  | _ => Build_trace [] (Some AttributeError)
  end.

End Call.

(** The sub-record [__call__] hands to the inner validator. *)
Definition passed_to_inner (self : KeysSubset) (data : PyDict.t value) : value :=
  VDict (subdict self data).

(** [r] is a field-group key held, at any depth, by the Record that is the
    inner validator of [outer]. *)
Inductive nested (r : KeysSubset) : KeysSubset -> Prop :=
| nested_here ks n dkeys :
    In (Subset r) dkeys -> nested r (Build_KeysSubset ks n (Dict dkeys))
| nested_deeper mid ks n dkeys :
    In (Subset mid) dkeys -> nested r mid ->
    nested r (Build_KeysSubset ks n (Dict dkeys)).

(** An inner validator that fails with the failure [e]. *)
Definition fails_with (e : value) : trafaret -> value -> value :=
  fun _ _ => VDataError e.

(** The key of the docstring, [KeysSubset('pwd', 'pwd1')]. *)
Definition pwd_rule : KeysSubset := __init__ ["pwd"; "pwd1"].

(** [KeysSubset('c')] over a Record holding the field [a] and
    [KeysSubset('b')], itself over a Record with the field [x]. *)
Definition nested_rule : KeysSubset :=
  set_trafaret (__init__ ["c"])
    (Dict [Key "a"; Subset (set_trafaret (__init__ ["b"]) (Dict [Key "x"]))]).

(** The names of [l] in the order of their first occurrence, each once:
    the order in which [dict(pairs)] keeps the keys of its pairs. *)
Fixpoint uniq (l : list string) : list string :=
  match l with
  | [] => []
  | x :: r => x :: filter (fun y => negb (String.eqb x y)) (uniq r)
  end.

(** The field and the value of a yielded triple. *)
Definition item_of (t : triple) : string * value := (fst (fst t), snd (fst t)).

End FieldGroup.

(** ** The documentation walker: [trafaret_parse] *)

Module Walker.

(** Python values the walker builds and prints.  A float is kept as the text
    Python prints for it: the walker formats bounds and never computes with
    them.  Text is ASCII. *)
Inductive pyval : Type :=
| PNone
| PBool (b : bool)
| PInt (z : Z)
| PFloat (text : string)
| PStr (s : string)
| PList (l : list pyval)
| PTuple (l : list pyval)
| PDict (d : list (string * pyval)).

Definition dict : Type := PyDict.t pyval.

Inductive exn : Type :=
| TypeError.

Definition dquote : string := String "034"%char EmptyString.
Definition squote : string := String "039"%char EmptyString.
Definition backslash : string := String "092"%char EmptyString.

Definition has_char (c : ascii) (s : string) : bool :=
  existsb (Ascii.eqb c) (list_ascii_of_string s).

Definition hex_digit (n : nat) : string :=
  String (nth n (list_ascii_of_string "0123456789abcdef") "0"%char) EmptyString.

(** [repr] of one character of a string literal quoted with [q]. *)
Definition repr_char (q : ascii) (c : ascii) : string :=
  let n := nat_of_ascii c in
  if Ascii.eqb c q || Ascii.eqb c "092"%char then backslash ++ String c EmptyString
  else if Nat.eqb n 9 then backslash ++ "t"
  else if Nat.eqb n 10 then backslash ++ "n"
  else if Nat.eqb n 13 then backslash ++ "r"
  else if Nat.ltb n 32 || Nat.eqb n 127
       then backslash ++ "x" ++ hex_digit (n / 16) ++ hex_digit (n mod 16)
  else String c EmptyString.

(** [repr(s)] for a string: single quotes, unless the text has a single
    quote and no double quote. *)
Definition repr_str (s : string) : string :=
  let q := if has_char "039"%char s && negb (has_char "034"%char s)
           then "034"%char else "039"%char in
  String q EmptyString
  ++ String.concat "" (map (repr_char q) (list_ascii_of_string s))
  ++ String q EmptyString.

Definition str_of_Z (z : Z) : string := NilZero.string_of_int (Z.to_int z).

(** [repr(v)] *)
Fixpoint py_repr (v : pyval) : string :=
  match v with
  | PNone => "None"
  | PBool true => "True"
  | PBool false => "False"
  | PInt z => str_of_Z z
  | PFloat text => text
  | PStr s => repr_str s
  | PList l => "[" ++ String.concat ", " (map py_repr l) ++ "]"
  | PTuple l =>
      match l with
      | [x] => "(" ++ py_repr x ++ ",)"
      | _ => "(" ++ String.concat ", " (map py_repr l) ++ ")"
      end
  | PDict d =>
      "{" ++ String.concat ", "
               (map (fun kv => repr_str (fst kv) ++ ": " ++ py_repr (snd kv)) d)
          ++ "}"
  end.

(** [str(v)], which is also ['{}'.format(v)] *)
Definition py_str (v : pyval) : string :=
  match v with
  | PStr s => s
  | _ => py_repr v
  end.

(** [sep.join(items)]: a [TypeError] unless every item is a string *)
Fixpoint str_items (items : list pyval) : option (list string) :=
  match items with
  | [] => Some []
  | PStr s :: rest =>
      match str_items rest with
      | Some l => Some (s :: l)
      | None => None
      end
  | _ :: _ => None
  end.

Definition str_join (sep : string) (items : list pyval) : exn + string :=
  match str_items items with
  | Some l => inr (String.concat sep l)
  | None => inl TypeError
  end.

(** [s.split('.')] *)
Fixpoint split_dot (cur : string) (s : string) : list string :=
  match s with
  | EmptyString => [cur]
  | String c s' =>
      if Ascii.eqb c "."%char then cur :: split_dot "" s'
      else split_dot (cur ++ String c EmptyString) s'
  end.

(** [parent.split('.')[-1]] *)
Definition last_segment (parent : string) : string :=
  last (split_dot "" parent) "".

(** The default of a field descriptor: the sentinel [_empty], or a value. *)
Inductive default_value : Type :=
| _empty
| Explicit (v : pyval).

(** A field descriptor ([Key]) of a [Dict]; [value] is the attribute the
    walker writes, absent until then. *)
Record Key_ (T : Type) : Type :=
  { name : string;
    default : default_value;
    optional : bool;
    value : option pyval;
    description : pyval;
    trafaret : T }.
Arguments name {T}.
Arguments default {T}.
Arguments optional {T}.
Arguments value {T}.
Arguments description {T}.
Arguments trafaret {T}.
Arguments Build_Key_ {T}.

(** The validator nodes the walker tells apart, with the attributes it
    reads; [Unknown] is any other node, with the text it prints as. *)
Inductive trafaret_ : Type :=
| Dict (keys : list (Key_ trafaret_))
| String_ (allow_blank : pyval) (regex : option string) (min_length max_length : pyval)
| Int (gt gte lt lte : pyval)
| Float (gt gte lt lte : pyval)
| Bool_
| Tuple (trafarets : list trafaret_) (length : Z)
| List_ (elem : trafaret_) (min_length max_length : pyval)
| Any
| Or (trafarets : list trafaret_)
| Enum (variants : list pyval)
| Null
| Mapping (key value : trafaret_)
| Unknown (text : string).

Abbreviation Key := (Key_ trafaret_).

(** [key.value = v] and the walked inner validator.  The walked tree is
    described occurrence by occurrence: it is the tree the program leaves
    when every [Key] object is held at one place.  A [Key] object held at
    several places is written at each of them and keeps the last write; what
    the calls return is the same either way, each row being made right after
    the write it reads. *)
Definition written (key : Key) (t : trafaret_) (v : pyval) : Key :=
  {| name := name key; default := default key; optional := optional key;
     value := Some v; description := description key; trafaret := t |}.

(** [get_default_value(key)] *)
Definition get_default_value (key : Key) : pyval :=
  match default key with
  | _empty => PStr "N/A"
  | Explicit (PStr EmptyString) => PStr (dquote ++ dquote)
  | Explicit v => v
  end.

Definition key_fields : list string :=
  ["name"; "default"; "optional"; "value"; "description"].

(** [key_map]: conversion of key params to the string representation *)
Definition key_map (f : string) : option (Key -> pyval) :=
  if String.eqb f "optional" then Some (fun k => if optional k then PBool true else PBool false)
  else if String.eqb f "default" then Some get_default_value
  else None.

(** [getattr(key, f)] for the fields of [key_fields] *)
Definition getattr_key (key : Key) (f : string) : pyval :=
  if String.eqb f "name" then PStr (name key)
  else if String.eqb f "value" then
    match value key with Some v => v | None => PNone end
  else if String.eqb f "description" then description key
  else PNone.

(** [[str(key_map[f](key) if f in key_map else getattr(key, f)) for f in key_fields]] *)
Definition row (key : Key) : pyval :=
  PList (map (fun f => PStr (py_str (match key_map f with
                                     | Some conv => conv key
                                     | None => getattr_key key f
                                     end))) key_fields).

(** What [getattr(tr, f)] gives for a constraint attribute: a plain value
    ([None] when unset) or a compiled pattern. *)
Inductive attr : Type :=
| Plain (v : pyval)
| Pattern (pattern : string).

Definition of_regex (r : option string) : attr :=
  match r with
  | Some p => Pattern p
  | None => Plain PNone
  end.

(** [getattr(tr, f)] for the attributes [join] is asked for *)
Definition getattr (tr : trafaret_) (f : string) : attr :=
  match tr with
  | String_ allow_blank regex min_length max_length =>
      if String.eqb f "allow_blank" then Plain allow_blank
      else if String.eqb f "regex" then of_regex regex
      else if String.eqb f "min_length" then Plain min_length
      else if String.eqb f "max_length" then Plain max_length
      else Plain PNone
  | Int gt gte lt lte | Float gt gte lt lte =>
      if String.eqb f "gt" then Plain gt
      else if String.eqb f "gte" then Plain gte
      else if String.eqb f "lt" then Plain lt
      else if String.eqb f "lte" then Plain lte
      else Plain PNone
  | List_ _ min_length max_length =>
      if String.eqb f "min_length" then Plain min_length
      else if String.eqb f "max_length" then Plain max_length
      else Plain PNone
  | _ => Plain PNone
  end.

(** [join(tr, attrs)] *)
Definition join (tr : trafaret_) (attrs : list string) : string :=
  String.concat ", "
    (flat_map (fun f =>
                 match getattr tr f with
                 | Plain PNone => []
                 | Plain v => [f ++ ": " ++ py_str v]
                 | Pattern p =>
                     if String.eqb f "regex"
                     then [f ++ ": " ++ dquote ++ p ++ dquote]
                     else [f ++ ": " ++ p]
                 end) attrs).

(** What one call returns: the node as the walk leaves it (the [value]
    attributes written), the brief, the requirement schema, the tables. *)
Definition outcome : Type := trafaret_ * pyval * pyval * dict.
Definition result : Type := exn + outcome.

Definition walked (o : outcome) : trafaret_ := fst (fst (fst o)).
Definition brief (o : outcome) : pyval := snd (fst (fst o)).
Definition canonical (o : outcome) : pyval := snd (fst o).
Definition tables (o : outcome) : dict := snd o.

(** [if val_table: tables.update(val_table)] *)
Definition merge (tbl val_table : dict) : dict :=
  match val_table with
  | [] => tbl
  | _ :: _ => PyDict.update tbl val_table
  end.

(** The variables of the loop over the keys of a [Dict]. *)
Record dict_loop : Type :=
  { keys_done : list Key;
    trafarets : list pyval;
    req_schema : dict;
    validation_tables : dict }.

Definition dict_loop_init : dict_loop :=
  {| keys_done := []; trafarets := []; req_schema := []; validation_tables := [] |}.

(** One turn of that loop, once the call on the key's validator has
    returned [child]. *)
Definition dict_step (key : Key) (child : outcome) (st : dict_loop) : dict_loop :=
  let key' := written key (walked child) (brief child) in
  {| keys_done := (keys_done st ++ [key'])%list;
     trafarets := (trafarets st ++ [row key'])%list;
     req_schema := PyDict.set (req_schema st) (name key) (canonical child);
     validation_tables := merge (validation_tables st) (tables child) |}.

(** The end of the [Dict] branch. *)
Definition dict_finish (parent : string) (is_subtraf : bool) (st : dict_loop) : outcome :=
  let validation_tables :=
    if is_subtraf
    then PyDict.set (validation_tables st) parent (PList (trafarets st))
    else validation_tables st in
  (Dict (keys_done st),
   (if is_subtraf then PStr parent else PDict (req_schema st)),
   PDict (req_schema st),
   validation_tables).

(** The variables of the loops of the [Tuple] and [Or] branches. *)
Record slot_loop : Type :=
  { slots_done : list trafaret_;
    values : list pyval;
    req_data : list pyval;
    val_tables : dict }.

Definition slot_loop_init : slot_loop :=
  {| slots_done := []; values := []; req_data := []; val_tables := [] |}.

(** What one turn of the [Tuple] or [Or] loop appends, [keep] being what
    the loop keeps of the slot's requirement schema. *)
Definition slot_step (keep : pyval -> pyval) (child : outcome) (st : slot_loop) : slot_loop :=
  {| slots_done := (slots_done st ++ [walked child])%list;
     values := (values st ++ [brief child])%list;
     req_data := (req_data st ++ [keep (canonical child)])%list;
     val_tables := merge (val_tables st) (tables child) |}.

Definition tuple_finish (length : Z) (st : slot_loop) : result :=
  match str_join ", " (values st) with
  | inl e => inl e
  | inr joined =>
      inr (Tuple (slots_done st) length,
           PStr ("List([" ++ joined ++ "], " ++ str_of_Z length ++ ")"),
           PList (req_data st),
           val_tables st)
  end.

(** The end of the [Or] branch; [req_data] holds the [str(req)] texts. *)
Definition or_finish (st : slot_loop) : result :=
  match str_join ", " (values st) with
  | inl e => inl e
  | inr joined =>
      inr (Or (slots_done st),
           PStr ("Or(" ++ joined ++ ")"),
           PStr (String.concat " or " (map py_str (req_data st))),
           val_tables st)
  end.

(** One turn of the loop over the keys of a [Dict]: the call on the key's
    validator under the child path, then [dict_step]; an exception ends the
    loop. *)
Definition dict_turn (parse : trafaret_ -> string -> result) (parent : string)
    (acc : exn + dict_loop) (key : Key) : exn + dict_loop :=
  match acc with
  | inl e => inl e
  | inr st =>
      let child_name := parent ++ "." ++ name key in
      match parse (trafaret key) child_name with
      | inl e => inl e
      | inr child => inr (dict_step key child st)
      end
  end.

(** One turn of the loop over the slots of a [Tuple] or an [Or]. *)
Definition slot_turn (parse : trafaret_ -> string -> result) (keep : pyval -> pyval)
    (parent : string) (acc : exn + slot_loop) (t : trafaret_) : exn + slot_loop :=
  match acc with
  | inl e => inl e
  | inr st =>
      match parse t parent with
      | inl e => inl e
      | inr child => inr (slot_step keep child st)
      end
  end.

(** What the [Tuple] loop keeps of a slot's requirement schema: itself. *)
Definition keep_req (req : pyval) : pyval := req.

(** What the [Or] loop keeps of it: [str(req)]. *)
Definition keep_str (req : pyval) : pyval := PStr (py_str req).

(** The end of the [List] branch. *)
Definition list_finish (tr : trafaret_) (min_length max_length : pyval)
    (child : outcome) : outcome :=
  (List_ (walked child) min_length max_length,
   PStr ("List([" ++ py_str (brief child) ++ "], "
           ++ join tr ["min_length"; "max_length"] ++ ")"),
   PList [canonical child],
   tables child).

(** The end of the [Mapping] branch. *)
Definition mapping_finish (k v : outcome) : outcome :=
  (Mapping (walked k) (walked v),
   PStr ("{" ++ py_str (brief k) ++ ": " ++ py_str (brief v) ++ "}"),
   PDict [(py_str (canonical k), PStr (py_str (canonical v)))],
   []).

(** [trafaret_parse(tr, parent)], with the module's list [subtraf_names] as
    it stands when the call is made. *)
Fixpoint trafaret_parse (subtraf_names : list string) (tr : trafaret_)
    (parent : string) {struct tr} : result :=
  match tr with
  | Dict keys =>
      let is_subtraf := is_in (last_segment parent) subtraf_names in
      match
        fold_left (dict_turn (trafaret_parse subtraf_names) parent)
                  keys (inr dict_loop_init)
      with
      | inl e => inl e
      | inr st => inr (dict_finish parent is_subtraf st)
      end
  | String_ _ _ _ _ =>
      inr (tr,
           PStr ("String(" ++ join tr ["allow_blank"; "regex"; "min_length"; "max_length"] ++ ")"),
           PStr "String", [])
  | Int _ _ _ _ =>
      inr (tr, PStr ("Integer(" ++ join tr ["gt"; "gte"; "lt"; "lte"] ++ ")"),
           PStr "Integer", [])
  | Float _ _ _ _ =>
      inr (tr, PStr ("Float(" ++ join tr ["gt"; "gte"; "lt"; "lte"] ++ ")"),
           PStr "Float", [])
  | Bool_ => inr (tr, PStr "Bool", PStr "Bool", [])
  | Tuple trafarets length =>
      match
        fold_left (slot_turn (trafaret_parse subtraf_names) keep_req parent)
                  trafarets (inr slot_loop_init)
      with
      | inl e => inl e
      | inr st => tuple_finish length st
      end
  | List_ elem min_length max_length =>
      match trafaret_parse subtraf_names elem parent with
      | inl e => inl e
      | inr child => inr (list_finish tr min_length max_length child)
      end
  | Any => inr (tr, PStr "Any", PStr "Any", [])
  | Or trafarets =>
      match
        fold_left (slot_turn (trafaret_parse subtraf_names) keep_str parent)
                  trafarets (inr slot_loop_init)
      with
      | inl e => inl e
      | inr st => or_finish st
      end
  | Enum variants =>
      inr (tr, PStr ("Enum" ++ py_str (PTuple variants)),
           PStr ("Enum" ++ py_str (PTuple variants)), [])
  | Null => inr (tr, PStr "Null", PStr "Null", [])
  | Mapping key value =>
      match trafaret_parse subtraf_names key parent with
      | inl e => inl e
      | inr k =>
          match trafaret_parse subtraf_names value parent with
          | inl e => inl e
          | inr v => inr (mapping_finish k v)
          end
      end
  | Unknown text => inr (tr, PStr text, PStr text, [])
  end.

(** The list as the module ships it: [subtraf_names = []]. *)
Definition subtraf_names : list string := [].

(** *** Descriptions of the walk used in the statements *)

(** The requirement schema of a node, read off the node alone: a Record
    maps each field name to its child's schema, a [Tuple] lists its slots'
    schemas, a [List] wraps its element's, an [Or] joins the texts of its
    alternatives' with [" or "], a [Mapping] maps the text of its key's
    schema to the text of its value's. *)
Fixpoint req_of (tr : trafaret_) : pyval :=
  match tr with
  | Dict keys =>
      PDict (PyDict.of_pairs (map (fun k => (name k, req_of (trafaret k))) keys))
  | String_ _ _ _ _ => PStr "String"
  | Int _ _ _ _ => PStr "Integer"
  | Float _ _ _ _ => PStr "Float"
  | Bool_ => PStr "Bool"
  | Tuple trafarets _ => PList (map req_of trafarets)
  | List_ elem _ _ => PList [req_of elem]
  | Any => PStr "Any"
  | Or trafarets =>
      PStr (String.concat " or " (map (fun t => py_str (req_of t)) trafarets))
  | Enum variants => PStr ("Enum" ++ py_str (PTuple variants))
  | Null => PStr "Null"
  | Mapping key value => PDict [(py_str (req_of key), PStr (py_str (req_of value)))]
  | Unknown text => PStr text
  end.

(** Whether the brief of a node walked at [parent] is a text: that of a
    Record is one only when the Record is registered. *)
Definition text_brief (subtraf_names : list string) (parent : string)
    (tr : trafaret_) : bool :=
  match tr with
  | Dict _ => is_in (last_segment parent) subtraf_names
  | _ => true
  end.

(** Whether the walk of a node returns: every slot of every [Tuple] and [Or]
    in it must have a text as its brief, for [', '.join] to take it. *)
Fixpoint walk_returns (subtraf_names : list string) (tr : trafaret_)
    (parent : string) {struct tr} : bool :=
  match tr with
  | Dict keys =>
      forallb (fun k => walk_returns subtraf_names (trafaret k)
                          (parent ++ "." ++ name k)) keys
  | Tuple trafarets _ | Or trafarets =>
      forallb (fun t => walk_returns subtraf_names t parent
                        && text_brief subtraf_names parent t) trafarets
  | List_ elem _ _ => walk_returns subtraf_names elem parent
  | Mapping key value =>
      walk_returns subtraf_names key parent && walk_returns subtraf_names value parent
  | _ => true
  end.

(** The binding of [q] in the last of the tables [ts] that binds it. *)
Definition last_binding (q : string) (ts : list dict) : option pyval :=
  fold_left (fun acc t => match PyDict.get t q with
                          | Some v => Some v
                          | None => acc
                          end) ts None.

(** The default cell of a documentation row: its second cell. *)
Definition row_default (r : pyval) : option pyval :=
  match r with
  | PList (_ :: cell :: _) => Some cell
  | _ => None
  end.

(** The row table a Record assembles from its keys and the outcomes of the
    calls on their validators. *)
Definition rows_of (keys : list Key) (outs : list outcome) : list pyval :=
  map (fun ko => row (written (fst ko) (walked (snd ko)) (brief (snd ko))))
      (combine keys outs).

(** The keys of a Record as the walk leaves them. *)
Definition keys_written (keys : list Key) (outs : list outcome) : list Key :=
  map (fun ko => written (fst ko) (walked (snd ko)) (brief (snd ko)))
      (combine keys outs).

(** *** Validators used in the examples *)

Definition field (n : string) (t : trafaret_) : Key :=
  {| name := n; default := _empty; optional := false; value := None;
     description := PNone; trafaret := t |}.

Definition a_string : trafaret_ := String_ (PBool false) None PNone PNone.
Definition an_int : trafaret_ := Int PNone PNone PNone PNone.

Definition address : trafaret_ :=
  Dict [field "street" a_string; field "zip" an_int].


(** Whether a Record occurs in the tree. *)
Fixpoint has_record (tr : trafaret_) : bool :=
  match tr with
  | Dict _ => true
  | Tuple trafarets _ | Or trafarets => existsb has_record trafarets
  | List_ elem _ _ => has_record elem
  | Mapping key value => has_record key || has_record value
  | _ => false
  end.

(** Whether a [Tuple] or an [Or], the two branches that call [', '.join],
    occurs in the tree. *)
Fixpoint has_join (tr : trafaret_) : bool :=
  match tr with
  | Dict keys => existsb (fun k => has_join (trafaret k)) keys
  | Tuple _ _ | Or _ => true
  | List_ elem _ _ => has_join elem
  | Mapping key value => has_join key || has_join value
  | _ => false
  end.

(** A documentation row: a list of as many texts as [key_fields] has. *)
Definition is_row (r : pyval) : bool :=
  match r with
  | PList cells =>
      Nat.eqb (List.length cells) (List.length key_fields)
      && forallb (fun c => match c with PStr _ => true | _ => false end) cells
  | _ => false
  end.

Definition is_row_table (v : pyval) : bool :=
  match v with
  | PList rows => forallb is_row rows
  | _ => false
  end.

(** The row of a key whose validator's walk returned [child], cell by
    cell. *)
Definition cells_of (key : Key) (child : outcome) : pyval :=
  PList [PStr (name key);
         PStr (py_str (get_default_value key));
         PStr (if optional key then "True" else "False");
         PStr (py_str (brief child));
         PStr (py_str (description key))].

(** The tree with the [value] attribute of every key taken away again. *)
Fixpoint erase (tr : trafaret_) : trafaret_ :=
  match tr with
  | Dict keys =>
      Dict (map (fun k => {| name := name k; default := default k;
                             optional := optional k; value := None;
                             description := description k;
                             trafaret := erase (trafaret k) |}) keys)
  | Tuple trafarets length => Tuple (map erase trafarets) length
  | List_ elem min_length max_length => List_ (erase elem) min_length max_length
  | Or trafarets => Or (map erase trafarets)
  | Mapping key value => Mapping (erase key) (erase value)
  | _ => tr
  end.


(** Two calls end alike: both raise the same exception, or both return,
    with the same brief, requirement schema and tables. *)
Definition same_output (r r' : result) : Prop :=
  match r, r' with
  | inr o, inr o' =>
      brief o = brief o' /\ canonical o = canonical o' /\ tables o = tables o'
  | inl e, inl e' => e = e'
  | _, _ => False
  end.

End Walker.

(** * Facts *)

(** ** Dictionaries *)

Module PyDictFacts.
Import PyDict.

Section Facts.
Context {V : Type}.
Implicit Types (d other : PyDict.t V) (k : string) (v : V).

Lemma mem_get d k : mem d k = true <-> get d k <> None.
Proof.
  induction d as [|[k' v] d IH]; simpl.
  - split; [discriminate | congruence].
  - destruct (String.eqb k' k); [split; [discriminate | reflexivity] | exact IH].
Qed.

Lemma get_set_same d k v : get (set d k v) k = Some v.
Proof.
  induction d as [|[k' v'] d IH]; simpl.
  - now rewrite String.eqb_refl.
  - destruct (String.eqb k' k) eqn:E; simpl; rewrite E; auto.
Qed.

Lemma get_set_other d k k' v : k <> k' -> get (set d k v) k' = get d k'.
Proof.
  intros Hne. induction d as [|[k0 v0] d IH]; simpl.
  - destruct (String.eqb k k') eqn:E; [apply String.eqb_eq in E; contradiction | reflexivity].
  - destruct (String.eqb k0 k) eqn:E; simpl.
    + apply String.eqb_eq in E; subst k0.
      destruct (String.eqb k k') eqn:E'; [apply String.eqb_eq in E'; contradiction | reflexivity].
    + destruct (String.eqb k0 k'); auto.
Qed.

Lemma get_set d k k' v :
  get (set d k v) k' = if String.eqb k k' then Some v else get d k'.
Proof.
  destruct (String.eqb k k') eqn:E.
  - apply String.eqb_eq in E; subst; apply get_set_same.
  - apply String.eqb_neq in E. now apply get_set_other.
Qed.

Lemma get_app (l1 l2 : PyDict.t V) k :
  get (l1 ++ l2)%list k =
    match get l1 k with Some v => Some v | None => get l2 k end.
Proof.
  induction l1 as [|[a b] l1 IHl]; simpl; [reflexivity|].
  destruct (String.eqb a k); auto.
Qed.

(** Last write wins: a key bound by [other] takes its value from there. *)
Lemma get_update d other k :
  get (update d other) k =
    match get (rev other) k with
    | Some v => Some v
    | None => get d k
    end.
Proof.
  unfold update. revert d.
  induction other as [|[k0 v0] other IH]; intros d; simpl; [reflexivity|].
  rewrite IH. clear IH.
  assert (Happ : forall (l1 l2 : PyDict.t V),
             get (l1 ++ l2)%list k =
               match get l1 k with Some v => Some v | None => get l2 k end).
  { induction l1 as [|[a b] l1 IHl]; intros l2; simpl; [reflexivity|].
    destruct (String.eqb a k); auto. }
  rewrite Happ. destruct (get (rev other) k); [reflexivity|].
  simpl. rewrite get_set. destruct (String.eqb k0 k); reflexivity.
Qed.

Lemma update_nil_r d : update d [] = d.
Proof. reflexivity. Qed.

Lemma keys_set d k v :
  keys (set d k v) = if mem d k then keys d else (keys d ++ [k])%list.
Proof.
  induction d as [|[k' v'] d IH]; simpl; [reflexivity|].
  destruct (String.eqb k' k) eqn:E; simpl; [reflexivity|].
  rewrite IH. destruct (mem d k); reflexivity.
Qed.

Lemma mem_In_keys d k : mem d k = true <-> In k (keys d).
Proof.
  induction d as [|[k' v'] d IH]; simpl.
  - split; [discriminate | tauto].
  - destruct (String.eqb k' k) eqn:E.
    + apply String.eqb_eq in E. tauto.
    + apply String.eqb_neq in E. rewrite IH. split; [tauto | intros [H|H]; [contradiction | exact H]].
Qed.

Lemma NoDup_keys_set d k v : NoDup (keys d) -> NoDup (keys (set d k v)).
Proof.
  intros Hd. rewrite keys_set. destruct (mem d k) eqn:E; [exact Hd|].
  apply NoDup_app; [exact Hd | constructor; [simpl; tauto | constructor] |].
  intros x Hx [Hk|[]]. subst x. apply mem_In_keys in Hx. congruence.
Qed.

Lemma NoDup_keys_update d other : NoDup (keys d) -> NoDup (keys (update d other)).
Proof.
  unfold update. revert d. induction other as [|[k v] other IH]; intros d Hd; simpl.
  - exact Hd.
  - apply IH. now apply NoDup_keys_set.
Qed.

Lemma get_None_keys d k : get d k = None <-> ~ In k (keys d).
Proof.
  rewrite <- mem_In_keys, mem_get. destruct (get d k); intuition congruence.
Qed.

Lemma get_rev d k : NoDup (keys d) -> get (rev d) k = get d k.
Proof.
  induction d as [|[a b] d IH]; intros Hd; [reflexivity|].
  simpl in Hd. inversion Hd as [|? ? Hnotin Hd']; subst.
  simpl. rewrite get_app, (IH Hd'). simpl.
  destruct (String.eqb a k) eqn:E.
  - apply String.eqb_eq in E. subst a.
    apply get_None_keys in Hnotin. now rewrite Hnotin.
  - now destruct (get d k).
Qed.

(** With [other] a dictionary, [d.update(other)] binds a key as [other]
    does, and as [d] does where [other] has no binding. *)
Lemma get_update_dict d other k :
  NoDup (keys other) ->
  get (update d other) k =
    match get other k with
    | Some v => Some v
    | None => get d k
    end.
Proof. intros H. now rewrite get_update, (get_rev _ _ H). Qed.

Lemma get_of_pairs_map (f : string -> V) (l : list string) d k :
  get (update d (map (fun x => (x, f x)) l)) k =
    if is_in k l then Some (f k) else get d k.
Proof.
  unfold update. revert d.
  induction l as [|x l IH]; intros d; simpl; [reflexivity|].
  rewrite IH, get_set. rewrite (String.eqb_sym k x).
  destruct (String.eqb x k) eqn:E; simpl.
  - apply String.eqb_eq in E. subst x. destruct (is_in k l); reflexivity.
  - reflexivity.
Qed.

End Facts.

End PyDictFacts.

(** ** The field-group key *)

Module FieldGroupFacts.
Import FieldGroup.

Lemma keys_names_Dict ks n dkeys :
  keys_names (Build_KeysSubset ks n (Dict dkeys)) =
    (Dict_keys_names key_keys_names dkeys ++ ks)%list.
Proof. reflexivity. Qed.

Lemma keys_names_not_Dict self :
  (forall dkeys, inner self <> Dict dkeys) -> keys_names self = keys self.
Proof.
  destruct self as [ks n [|dkeys|tag]]; simpl; intros H; try reflexivity.
  now destruct (H dkeys).
Qed.

Lemma Dict_keys_names_split r dkeys :
  In (Subset r) dkeys ->
  exists pre post,
    Dict_keys_names key_keys_names dkeys = (pre ++ keys_names r ++ post)%list.
Proof.
  intros Hin. apply in_split in Hin. destruct Hin as (l1 & l2 & ->).
  exists (Dict_keys_names key_keys_names l1), (Dict_keys_names key_keys_names l2).
  unfold Dict_keys_names. rewrite flat_map_app. reflexivity.
Qed.

Lemma nested_block r outer :
  nested r outer ->
  exists pre post, keys_names outer = (pre ++ keys_names r ++ post ++ keys outer)%list.
Proof.
  induction 1 as [ks n dkeys Hin | mid ks n dkeys Hin Hn IH].
  - destruct (Dict_keys_names_split _ _ Hin) as (pre & post & E).
    exists pre, post. rewrite keys_names_Dict, E. simpl.
    now rewrite <- !app_assoc.
  - destruct (Dict_keys_names_split _ _ Hin) as (pre & post & E).
    destruct IH as (pre' & post' & E').
    exists (pre ++ pre')%list, (post' ++ keys mid ++ post)%list.
    rewrite keys_names_Dict, E, E'. simpl. now rewrite <- !app_assoc.
Qed.

Lemma is_in_filter (p : string -> bool) k l :
  is_in k (filter p l) = is_in k l && p k.
Proof.
  unfold is_in. induction l as [|x l IH]; simpl; [reflexivity|].
  destruct (p x) eqn:Px; simpl; rewrite IH.
  - destruct (String.eqb k x) eqn:E; simpl; [|reflexivity].
    apply String.eqb_eq in E. subst x. now rewrite Px.
  - destruct (String.eqb k x) eqn:E; simpl; [|reflexivity].
    apply String.eqb_eq in E. subst x. rewrite Px. now rewrite andb_false_r.
Qed.

Lemma mem_true_get {V} (d : PyDict.t V) k :
  PyDict.mem d k = match PyDict.get d k with Some _ => true | None => false end.
Proof.
  induction d as [|[k' v] d IH]; simpl; [reflexivity|].
  destruct (String.eqb k' k); auto.
Qed.

Lemma subdict_get self data k :
  PyDict.get (subdict self data) k =
    if is_in k (keys_names self) then PyDict.get data k else None.
Proof.
  unfold subdict, PyDict.of_pairs.
  rewrite (PyDictFacts.get_of_pairs_map (data_get data)).
  rewrite is_in_filter, mem_true_get. unfold data_get. simpl.
  destruct (is_in k (keys_names self)); simpl; [|reflexivity].
  destruct (PyDict.get data k); reflexivity.
Qed.

Lemma subdict_NoDup self data : NoDup (PyDict.keys (subdict self data)).
Proof.
  unfold subdict, PyDict.of_pairs. apply PyDictFacts.NoDup_keys_update. constructor.
Qed.

(** C1: when the inner validator fails with a structured failure, the call
    yields, for every (field, error) pair of the failure's mapping and in its
    order, the triple (field, normalized error, the keys_names generator) and
    ends normally; normalizing wraps an error that is not a [DataError] into
    one and leaves a [DataError] as it is. *)
Theorem call_structured_failure
    (catch_error : trafaret -> value -> value) (self : KeysSubset)
    (data : PyDict.t value) (items : list (string * value)) :
  catch_error (inner self) (passed_to_inner self data) = VDataError (VDict items) ->
  __call__ catch_error self data =
    {| yielded := map (fun ke => (fst ke, normalize (snd ke),
                                  {| pending := keys_names self |})) items;
       raised := None |}
  /\ (forall k e, In (k, e) items ->
        In (k, normalize e, {| pending := keys_names self |})
           (yielded (__call__ catch_error self data)))
  /\ (forall e, is_DataError e = false -> normalize e = VDataError e)
  /\ (forall e, is_DataError e = true -> normalize e = e).
Proof.
  intros Hres.
  assert (Hcall : __call__ catch_error self data =
    {| yielded := map (fun ke => (fst ke, normalize (snd ke),
                                  {| pending := keys_names self |})) items;
       raised := None |}).
  { unfold __call__. unfold passed_to_inner in Hres. now rewrite Hres. }
  split; [exact Hcall|]. split; [|split].
  - intros k e Hin. rewrite Hcall. simpl.
    apply (in_map (fun ke => (fst ke, normalize (snd ke),
                              {| pending := keys_names self |})) items (k, e) Hin).
  - intros e He. unfold normalize. now rewrite He.
  - intros e He. unfold normalize. now rewrite He.
Qed.

Lemma call_structured_failure_witness :
  __call__ (fails_with (VDict [("pwd", VStr "Not equal");
                               ("pwd1", VDataError (VStr "Not equal"))]))
           pwd_rule [("pwd", VStr "a"); ("pwd1", VStr "c")] =
    {| yielded :=
         [("pwd", VDataError (VStr "Not equal"), {| pending := ["pwd"; "pwd1"] |});
          ("pwd1", VDataError (VStr "Not equal"), {| pending := ["pwd"; "pwd1"] |})];
       raised := None |}.
Proof.
  exact (proj1 (call_structured_failure
                  (fails_with (VDict [("pwd", VStr "Not equal");
                                      ("pwd1", VDataError (VStr "Not equal"))]))
                  pwd_rule [("pwd", VStr "a"); ("pwd1", VStr "c")]
                  [("pwd", VStr "Not equal"); ("pwd1", VDataError (VStr "Not equal"))]
                  eq_refl)).
Defined.

(** C10: when the inner validator fails, the call ends normally exactly when
    the failure is structured; with a leaf failure, whose error is a message,
    the call yields nothing and raises (the message has no [items]). *)
Theorem call_failure_raises_unless_structured
    (catch_error : trafaret -> value -> value) (self : KeysSubset)
    (data : PyDict.t value) (error : value) :
  catch_error (inner self) (passed_to_inner self data) = VDataError error ->
  (raised (__call__ catch_error self data) = None <->
     exists items, error = VDict items)
  /\ (forall msg, error = VStr msg ->
        __call__ catch_error self data =
          {| yielded := []; raised := Some AttributeError |}).
Proof.
  intros Hres. unfold passed_to_inner in Hres. unfold __call__. rewrite Hres.
  split.
  - destruct error; simpl; split; intros H; try discriminate;
      try (destruct H as (items & H); discriminate); eauto.
  - intros msg ->. reflexivity.
Qed.

Lemma call_failure_raises_unless_structured_witness :
  __call__ (fails_with (VStr "Not equal")) pwd_rule
           [("pwd", VStr "a"); ("pwd1", VStr "c")] =
    {| yielded := []; raised := Some AttributeError |}.
Proof.
  exact (proj2 (call_failure_raises_unless_structured
                  (fails_with (VStr "Not equal")) pwd_rule
                  [("pwd", VStr "a"); ("pwd1", VStr "c")] (VStr "Not equal") eq_refl)
               "Not equal" eq_refl).
Defined.

(** C2: when the inner validator is a Record, [keys_names()] yields the
    Record's names first and the rule's own source names after them; a rule
    held by that Record, at any depth, contributes its own [keys_names()] as
    one block inside the Record's names, so the order holds under nesting. *)
Theorem keys_names_inner_first (self : KeysSubset) (dkeys : list key) :
  inner self = Dict dkeys ->
  keys_names self = (Dict_keys_names key_keys_names dkeys ++ keys self)%list
  /\ (forall r, nested r self ->
        exists pre post,
          keys_names self = (pre ++ keys_names r ++ post ++ keys self)%list)
  /\ (forall r rkeys, nested r self -> inner r = Dict rkeys ->
        exists pre post,
          keys_names self =
            (pre ++ (Dict_keys_names key_keys_names rkeys ++ keys r)
                 ++ post ++ keys self)%list).
Proof.
  intros Hinner. destruct self as [ks n t]. simpl in Hinner. subst t.
  split; [apply keys_names_Dict|]. split.
  - intros r Hr. now apply nested_block.
  - intros r rkeys Hr Hri. destruct (nested_block _ _ Hr) as (pre & post & E).
    exists pre, post. rewrite E. destruct r as [rks rn rt]. simpl in Hri. subst rt.
    now rewrite keys_names_Dict.
Qed.

Lemma keys_names_inner_first_witness :
  keys_names nested_rule = ["a"; "x"; "b"; "c"].
Proof.
  exact (proj1 (keys_names_inner_first nested_rule
                  [Key "a"; Subset (set_trafaret (__init__ ["b"]) (Dict [Key "x"]))]
                  eq_refl)).
Defined.

(** C3, as the code has it: the sub-record binds exactly the names of
    [keys_names()] that the input has, each once and to its input value;
    these are the declared source fields when the inner validator is not a
    Record, and the Record's names as well when it is one. *)
Theorem subdict_spec (self : KeysSubset) (data : PyDict.t value) :
  (forall k, PyDict.get (subdict self data) k =
               if is_in k (keys_names self) then PyDict.get data k else None)
  /\ NoDup (PyDict.keys (subdict self data))
  /\ ((forall dkeys, inner self <> Dict dkeys) ->
      forall k, PyDict.get (subdict self data) k =
                  if is_in k (keys self) then PyDict.get data k else None)
  /\ (forall dkeys, inner self = Dict dkeys ->
      forall k, PyDict.get (subdict self data) k =
                  if is_in k (Dict_keys_names key_keys_names dkeys) || is_in k (keys self)
                  then PyDict.get data k else None).
Proof.
  split; [intros k; apply subdict_get|]. split; [apply subdict_NoDup|]. split.
  - intros H k. rewrite subdict_get. now rewrite (keys_names_not_Dict self H).
  - intros dkeys H k. rewrite subdict_get. destruct self as [ks n t].
    simpl in H. subst t. rewrite keys_names_Dict. unfold is_in.
    now rewrite existsb_app.
Qed.

Lemma subdict_spec_witness :
  PyDict.get (subdict pwd_rule [("pwd", VStr "a"); ("key1", VStr "b")]) "pwd"
    = Some (VStr "a")
  /\ PyDict.get (subdict pwd_rule [("pwd", VStr "a"); ("key1", VStr "b")]) "pwd1"
    = None
  /\ PyDict.get (subdict pwd_rule [("pwd", VStr "a"); ("key1", VStr "b")]) "key1"
    = None.
Proof.
  pose proof (proj1 (subdict_spec pwd_rule [("pwd", VStr "a"); ("key1", VStr "b")])) as H.
  repeat split; rewrite H; reflexivity.
Defined.

(** C3 as stated fails: the rule of the docstring, [KeysSubset()] over
    [Dict({'a': Any})], declares no source field, and the sub-record built
    from the input [{'a': 3}] holds ['a']. *)
Lemma subdict_holds_inner_record_names :
  exists self data k,
    self = set_trafaret (__init__ []) (Dict [Key "a"])
    /\ data = [("a", VInt 3)]
    /\ is_in k (keys self) = false
    /\ PyDict.get (subdict self data) k = Some (VInt 3).
Proof.
  exists (set_trafaret (__init__ []) (Dict [Key "a"])), [("a", VInt 3)], "a".
  repeat split.
Qed.

(** C4, as the code has it: a rule with no source field hands to its inner
    validator the input restricted to the names of the inner Record, and the
    empty record when the inner validator is not a Record. *)
Theorem empty_keys_subdict (self : KeysSubset) (data : PyDict.t value) :
  keys self = [] ->
  (forall dkeys, inner self = Dict dkeys ->
     forall k, PyDict.get (subdict self data) k =
                 if is_in k (Dict_keys_names key_keys_names dkeys)
                 then PyDict.get data k else None)
  /\ ((forall dkeys, inner self <> Dict dkeys) ->
      passed_to_inner self data = VDict []).
Proof.
  intros Hk. split.
  - intros dkeys H k. rewrite subdict_get. destruct self as [ks n t].
    simpl in H, Hk. subst t ks. rewrite keys_names_Dict. now rewrite app_nil_r.
  - intros H. unfold passed_to_inner, subdict.
    rewrite (keys_names_not_Dict self H), Hk. reflexivity.
Qed.

Lemma empty_keys_subdict_witness :
  passed_to_inner (__init__ []) [("a", VInt 3); ("b", VInt 4)] = VDict [].
Proof.
  apply (proj2 (empty_keys_subdict (__init__ []) [("a", VInt 3); ("b", VInt 4)] eq_refl)).
  intros dkeys H. discriminate H.
Defined.

(** C4 as stated fails: [KeysSubset()], whose inner validator is [Any()],
    hands the empty record, not the input [{'a': 3}], to it. *)
Lemma empty_keys_pass_empty_record :
  passed_to_inner (__init__ []) [("a", VInt 3)] = VDict []
  /\ passed_to_inner (__init__ []) [("a", VInt 3)] <> VDict [("a", VInt 3)].
Proof.
  split; [reflexivity | discriminate].
Qed.

End FieldGroupFacts.

(** ** The documentation walker *)

Module WalkerFacts.
Import Walker.

(** Induction over a validator tree, with the hypothesis for every key of a
    Record and every slot of a [Tuple] or an [Or]. *)
Section Induction.
Variable P : trafaret_ -> Prop.
Hypothesis HDict : forall keys, Forall (fun k => P (trafaret k)) keys -> P (Dict keys).
Hypothesis HString : forall a r mn mx, P (String_ a r mn mx).
Hypothesis HInt : forall a b c d, P (Int a b c d).
Hypothesis HFloat : forall a b c d, P (Float a b c d).
Hypothesis HBool : P Bool_.
Hypothesis HTuple : forall ts len, Forall P ts -> P (Tuple ts len).
Hypothesis HList : forall e mn mx, P e -> P (List_ e mn mx).
Hypothesis HAny : P Any.
Hypothesis HOr : forall ts, Forall P ts -> P (Or ts).
Hypothesis HEnum : forall vs, P (Enum vs).
Hypothesis HNull : P Null.
Hypothesis HMapping : forall k v, P k -> P v -> P (Mapping k v).
Hypothesis HUnknown : forall text, P (Unknown text).

Fixpoint trafaret_induction (tr : trafaret_) : P tr :=
  match tr with
  | Dict keys =>
      HDict keys
        ((fix go (ks : list Key) : Forall (fun k => P (trafaret k)) ks :=
            match ks with
            | [] => Forall_nil _
            | k :: ks' => Forall_cons k (trafaret_induction (trafaret k)) (go ks')
            end) keys)
  | String_ a r mn mx => HString a r mn mx
  | Int a b c d => HInt a b c d
  | Float a b c d => HFloat a b c d
  | Bool_ => HBool
  | Tuple ts len =>
      HTuple ts len
        ((fix go (l : list trafaret_) : Forall P l :=
            match l with
            | [] => Forall_nil _
            | t :: l' => Forall_cons t (trafaret_induction t) (go l')
            end) ts)
  | List_ e mn mx => HList e mn mx (trafaret_induction e)
  | Any => HAny
  | Or ts =>
      HOr ts
        ((fix go (l : list trafaret_) : Forall P l :=
            match l with
            | [] => Forall_nil _
            | t :: l' => Forall_cons t (trafaret_induction t) (go l')
            end) ts)
  | Enum vs => HEnum vs
  | Null => HNull
  | Mapping k v => HMapping k v (trafaret_induction k) (trafaret_induction v)
  | Unknown text => HUnknown text
  end.

End Induction.

(** *** The loops *)

Section Loops.
Variable parse : trafaret_ -> string -> result.
Variable parent : string.

Definition child_ok (k : Key) (o : outcome) : Prop :=
  parse (trafaret k) (parent ++ "." ++ name k) = inr o.

Definition slot_ok (t : trafaret_) (o : outcome) : Prop :=
  parse t parent = inr o.

Definition dict_run (kos : list (Key * outcome)) (st : dict_loop) : dict_loop :=
  fold_left (fun st ko => dict_step (fst ko) (snd ko) st) kos st.

Definition slot_run (keep : pyval -> pyval) (outs : list outcome) (st : slot_loop) : slot_loop :=
  fold_left (fun st o => slot_step keep o st) outs st.

Lemma dict_loop_raised keys e :
  fold_left (dict_turn parse parent) keys (inl e) = inl e.
Proof. induction keys; simpl; auto. Qed.

Lemma slot_loop_raised keep ts e :
  fold_left (slot_turn parse keep parent) ts (inl e) = inl e.
Proof. induction ts; simpl; auto. Qed.

Lemma dict_loop_cons k keys st0 :
  fold_left (dict_turn parse parent) (k :: keys) (inr st0) =
    match parse (trafaret k) (parent ++ "." ++ name k) with
    | inl e => inl e
    | inr child => fold_left (dict_turn parse parent) keys (inr (dict_step k child st0))
    end.
Proof.
  cbn [fold_left].
  replace (dict_turn parse parent (inr st0) k)
    with (match parse (trafaret k) (parent ++ "." ++ name k) with
          | inl e => inl e
          | inr child => inr (dict_step k child st0)
          end : exn + dict_loop) by reflexivity.
  destruct (parse (trafaret k) (parent ++ "." ++ name k));
    [apply dict_loop_raised | reflexivity].
Qed.

Lemma slot_loop_cons keep t ts st0 :
  fold_left (slot_turn parse keep parent) (t :: ts) (inr st0) =
    match parse t parent with
    | inl e => inl e
    | inr child => fold_left (slot_turn parse keep parent) ts (inr (slot_step keep child st0))
    end.
Proof.
  cbn [fold_left].
  replace (slot_turn parse keep parent (inr st0) t)
    with (match parse t parent with
          | inl e => inl e
          | inr child => inr (slot_step keep child st0)
          end : exn + slot_loop) by reflexivity.
  destruct (parse t parent); [apply slot_loop_raised | reflexivity].
Qed.

Lemma dict_loop_returns keys st0 st :
  fold_left (dict_turn parse parent) keys (inr st0) = inr st <->
  exists outs, Forall2 child_ok keys outs /\ st = dict_run (combine keys outs) st0.
Proof.
  revert st0. induction keys as [|k keys IH]; intros st0.
  - simpl. split.
    + intros H. injection H as <-. exists []. split; [constructor | reflexivity].
    + intros (outs & HF & ->). inversion HF; subst. reflexivity.
  - rewrite dict_loop_cons.
    destruct (parse (trafaret k) (parent ++ "." ++ name k)) as [e|child] eqn:E.
    + split; [discriminate|].
      intros (outs & HF & _). inversion HF; subst. unfold child_ok in *. congruence.
    + rewrite IH. split.
      * intros (outs & HF & ->). exists (child :: outs). split; [|reflexivity].
        constructor; [exact E | exact HF].
      * intros (outs & HF & ->). inversion HF as [|? o ? outs' Hk HF']; subst.
        unfold child_ok in Hk. rewrite E in Hk. injection Hk as <-.
        exists outs'. split; [exact HF' | reflexivity].
Qed.

Lemma dict_loop_total keys st0 :
  (exists st, fold_left (dict_turn parse parent) keys (inr st0) = inr st) <->
  Forall (fun k => exists o, child_ok k o) keys.
Proof.
  revert st0. induction keys as [|k keys IH]; intros st0.
  - simpl. split; [constructor | eauto].
  - rewrite dict_loop_cons. unfold child_ok at 1.
    destruct (parse (trafaret k) (parent ++ "." ++ name k)) as [e|child] eqn:E.
    + split; [intros (st & H); discriminate|].
      intros H. inversion H as [|? ? (o & Ho) _]; subst. unfold child_ok in Ho. congruence.
    + rewrite IH. split.
      * intros H. constructor; [exists child; exact E | exact H].
      * intros H. now inversion H.
Qed.

Lemma slot_loop_returns keep ts st0 st :
  fold_left (slot_turn parse keep parent) ts (inr st0) = inr st <->
  exists outs, Forall2 slot_ok ts outs /\ st = slot_run keep outs st0.
Proof.
  revert st0. induction ts as [|t ts IH]; intros st0.
  - simpl. split.
    + intros H. injection H as <-. exists []. split; [constructor | reflexivity].
    + intros (outs & HF & ->). inversion HF; subst. reflexivity.
  - rewrite slot_loop_cons. destruct (parse t parent) as [e|child] eqn:E.
    + split; [discriminate|].
      intros (outs & HF & _). inversion HF; subst. unfold slot_ok in *. congruence.
    + rewrite IH. split.
      * intros (outs & HF & ->). exists (child :: outs). split; [|reflexivity].
        constructor; [exact E | exact HF].
      * intros (outs & HF & ->). inversion HF as [|? o ? outs' Hk HF']; subst.
        unfold slot_ok in Hk. rewrite E in Hk. injection Hk as <-.
        exists outs'. split; [exact HF' | reflexivity].
Qed.

Lemma slot_loop_total keep ts st0 :
  (exists st, fold_left (slot_turn parse keep parent) ts (inr st0) = inr st) <->
  Forall (fun t => exists o, slot_ok t o) ts.
Proof.
  revert st0. induction ts as [|t ts IH]; intros st0.
  - simpl. split; [constructor | eauto].
  - rewrite slot_loop_cons. unfold slot_ok at 1.
    destruct (parse t parent) as [e|child] eqn:E.
    + split; [intros (st & H); discriminate|].
      intros H. inversion H as [|? ? (o & Ho) _]; subst. unfold slot_ok in Ho. congruence.
    + rewrite IH. split.
      * intros H. constructor; [exists child; exact E | exact H].
      * intros H. now inversion H.
Qed.

End Loops.

(** *** What the loops leave in their variables *)

Lemma dict_run_app kos1 kos2 st :
  dict_run (kos1 ++ kos2) st = dict_run kos2 (dict_run kos1 st).
Proof. unfold dict_run. apply fold_left_app. Qed.

Lemma keys_done_run kos st :
  keys_done (dict_run kos st) =
    (keys_done st
       ++ map (fun ko => written (fst ko) (walked (snd ko)) (brief (snd ko))) kos)%list.
Proof.
  revert st. induction kos as [|ko kos IH]; intros st; simpl.
  - now rewrite app_nil_r.
  - unfold dict_run in *. simpl. rewrite IH. simpl. now rewrite <- app_assoc.
Qed.

Lemma trafarets_run kos st :
  trafarets (dict_run kos st) =
    (trafarets st
       ++ map (fun ko => row (written (fst ko) (walked (snd ko)) (brief (snd ko)))) kos)%list.
Proof.
  revert st. induction kos as [|ko kos IH]; intros st; simpl.
  - now rewrite app_nil_r.
  - unfold dict_run in *. simpl. rewrite IH. simpl. now rewrite <- app_assoc.
Qed.

Lemma req_schema_run kos st :
  req_schema (dict_run kos st) =
    PyDict.update (req_schema st)
      (map (fun ko => (name (fst ko), canonical (snd ko))) kos).
Proof.
  revert st. induction kos as [|ko kos IH]; intros st; simpl; [reflexivity|].
  unfold dict_run in *. simpl. rewrite IH. reflexivity.
Qed.

Lemma validation_tables_run kos st :
  validation_tables (dict_run kos st) =
    fold_left merge (map (fun ko => tables (snd ko)) kos) (validation_tables st).
Proof.
  revert st. induction kos as [|ko kos IH]; intros st; simpl; [reflexivity|].
  unfold dict_run in *. simpl. rewrite IH. reflexivity.
Qed.

Lemma slots_done_run keep outs st :
  slots_done (slot_run keep outs st) = (slots_done st ++ map walked outs)%list.
Proof.
  revert st. induction outs as [|o outs IH]; intros st; simpl.
  - now rewrite app_nil_r.
  - unfold slot_run in *. simpl. rewrite IH. simpl. now rewrite <- app_assoc.
Qed.

Lemma values_run keep outs st :
  values (slot_run keep outs st) = (values st ++ map brief outs)%list.
Proof.
  revert st. induction outs as [|o outs IH]; intros st; simpl.
  - now rewrite app_nil_r.
  - unfold slot_run in *. simpl. rewrite IH. simpl. now rewrite <- app_assoc.
Qed.

Lemma req_data_run keep outs st :
  req_data (slot_run keep outs st) =
    (req_data st ++ map (fun o => keep (canonical o)) outs)%list.
Proof.
  revert st. induction outs as [|o outs IH]; intros st; simpl.
  - now rewrite app_nil_r.
  - unfold slot_run in *. simpl. rewrite IH. simpl. now rewrite <- app_assoc.
Qed.

Lemma val_tables_run keep outs st :
  val_tables (slot_run keep outs st) =
    fold_left merge (map tables outs) (val_tables st).
Proof.
  revert st. induction outs as [|o outs IH]; intros st; simpl; [reflexivity|].
  unfold slot_run in *. simpl. rewrite IH. reflexivity.
Qed.

Lemma combine_snd {A B} (l : list A) (l' : list B) (R : A -> B -> Prop) :
  Forall2 R l l' -> map snd (combine l l') = l'.
Proof. induction 1; simpl; congruence. Qed.

Lemma map_snd_combine {A B C} (f : B -> C) (l : list A) (l' : list B)
    (R : A -> B -> Prop) :
  Forall2 R l l' -> map (fun ab => f (snd ab)) (combine l l') = map f l'.
Proof. induction 1; simpl; congruence. Qed.

Lemma combine_fst {A B} (l : list A) (l' : list B) (R : A -> B -> Prop) :
  Forall2 R l l' -> map fst (combine l l') = l.
Proof. induction 1; simpl; congruence. Qed.

(** *** Unfolding the walk *)

Lemma parse_Dict S keys parent :
  trafaret_parse S (Dict keys) parent =
    match fold_left (dict_turn (trafaret_parse S) parent) keys (inr dict_loop_init) with
    | inl e => inl e
    | inr st => inr (dict_finish parent (is_in (last_segment parent) S) st)
    end.
Proof. reflexivity. Qed.

Lemma parse_Tuple S ts len parent :
  trafaret_parse S (Tuple ts len) parent =
    match fold_left (slot_turn (trafaret_parse S) keep_req parent) ts (inr slot_loop_init) with
    | inl e => inl e
    | inr st => tuple_finish len st
    end.
Proof. reflexivity. Qed.

Lemma parse_Or S ts parent :
  trafaret_parse S (Or ts) parent =
    match fold_left (slot_turn (trafaret_parse S) keep_str parent) ts (inr slot_loop_init) with
    | inl e => inl e
    | inr st => or_finish st
    end.
Proof. reflexivity. Qed.

Lemma parse_List S e mn mx parent :
  trafaret_parse S (List_ e mn mx) parent =
    match trafaret_parse S e parent with
    | inl x => inl x
    | inr child => inr (list_finish (List_ e mn mx) mn mx child)
    end.
Proof. reflexivity. Qed.

Lemma parse_Mapping S k v parent :
  trafaret_parse S (Mapping k v) parent =
    match trafaret_parse S k parent with
    | inl e => inl e
    | inr ok =>
        match trafaret_parse S v parent with
        | inl e => inl e
        | inr ov => inr (mapping_finish ok ov)
        end
    end.
Proof. reflexivity. Qed.

(** The walk of a Record whose fields' walks return. *)
Lemma parse_Dict_returns S keys parent outs :
  Forall2 (child_ok (trafaret_parse S) parent) keys outs ->
  trafaret_parse S (Dict keys) parent =
    inr (dict_finish parent (is_in (last_segment parent) S)
           (dict_run (combine keys outs) dict_loop_init)).
Proof.
  intros HF. rewrite parse_Dict.
  assert (E : fold_left (dict_turn (trafaret_parse S) parent) keys (inr dict_loop_init)
              = inr (dict_run (combine keys outs) dict_loop_init)).
  { apply dict_loop_returns. exists outs. split; [exact HF | reflexivity]. }
  now rewrite E.
Qed.

Lemma parse_Dict_inv S keys parent o :
  trafaret_parse S (Dict keys) parent = inr o ->
  exists outs,
    Forall2 (child_ok (trafaret_parse S) parent) keys outs
    /\ o = dict_finish parent (is_in (last_segment parent) S)
             (dict_run (combine keys outs) dict_loop_init).
Proof.
  rewrite parse_Dict.
  destruct (fold_left _ keys _) as [e|st] eqn:E; [discriminate|].
  intros H. injection H as <-.
  apply dict_loop_returns in E. destruct E as (outs & HF & ->). eauto.
Qed.

Lemma parse_slots_inv S keep ts parent st :
  fold_left (slot_turn (trafaret_parse S) keep parent) ts (inr slot_loop_init) = inr st ->
  exists outs,
    Forall2 (slot_ok (trafaret_parse S) parent) ts outs
    /\ slots_done st = map walked outs
    /\ values st = map brief outs
    /\ req_data st = map (fun o => keep (canonical o)) outs
    /\ val_tables st = fold_left merge (map tables outs) [].
Proof.
  intros E. apply slot_loop_returns in E. destruct E as (outs & HF & ->).
  exists outs. split; [exact HF|].
  rewrite slots_done_run, values_run, req_data_run, val_tables_run. auto.
Qed.

Lemma map_along {X A} (R : X -> outcome -> Prop) (f : outcome -> A) (g : X -> A)
    (xs : list X) (outs : list outcome) :
  Forall2 R xs outs ->
  Forall (fun x => forall o, R x o -> f o = g x) xs ->
  map f outs = map g xs.
Proof.
  induction 1 as [|x o xs outs Hxo HF IH]; intros HP; [reflexivity|].
  inversion HP as [|? ? Hx HP']; subst. simpl. f_equal; auto.
Qed.

Lemma map_combine_along {X A} (R : X -> outcome -> Prop) (f : X * outcome -> A)
    (g : X -> A) (xs : list X) (outs : list outcome) :
  Forall2 R xs outs ->
  Forall (fun x => forall o, R x o -> f (x, o) = g x) xs ->
  map f (combine xs outs) = map g xs.
Proof.
  induction 1 as [|x o xs outs Hxo HF IH]; intros HP; [reflexivity|].
  inversion HP as [|? ? Hx HP']; subst. simpl. f_equal; auto.
Qed.

(** *** The requirement schema depends on the node alone *)

Lemma canonical_is_req_of tr :
  forall S parent o, trafaret_parse S tr parent = inr o -> canonical o = req_of tr.
Proof.
  induction tr as [keys IH|a r mn mx|a b c d|a b c d| |ts len IH|e mn mx IH| |ts IH|vs| |k v IHk IHv|text]
    using trafaret_induction; intros S parent o H;
    try (simpl in H; injection H as <-; reflexivity).
  - apply parse_Dict_inv in H. destruct H as (outs & HF & ->).
    unfold dict_finish, canonical. simpl. rewrite req_schema_run. simpl.
    unfold PyDict.of_pairs. do 2 f_equal.
    apply (map_combine_along (child_ok (trafaret_parse S) parent)); [exact HF|].
    eapply Forall_impl; [|exact IH]. intros k Hk o Hko. simpl. f_equal.
    exact (Hk _ _ _ Hko).
  - rewrite parse_Tuple in H.
    destruct (fold_left _ ts _) as [e|st] eqn:E; [discriminate|].
    apply parse_slots_inv in E. destruct E as (outs & HF & _ & _ & Hreq & _).
    unfold tuple_finish in H. destruct (str_join ", " (values st)); [discriminate|].
    injection H as <-. unfold canonical. simpl. rewrite Hreq. f_equal.
    apply (map_along (slot_ok (trafaret_parse S) parent)); [exact HF|].
    eapply Forall_impl; [|exact IH]. intros t Ht o Hto. exact (Ht _ _ _ Hto).
  - rewrite parse_List in H. destruct (trafaret_parse S e parent) as [x|child] eqn:E;
      [discriminate|]. injection H as <-. unfold list_finish, canonical. simpl.
    now rewrite <- (IH _ _ _ E).
  - rewrite parse_Or in H.
    destruct (fold_left _ ts _) as [e|st] eqn:E; [discriminate|].
    apply parse_slots_inv in E. destruct E as (outs & HF & _ & _ & Hreq & _).
    unfold or_finish in H. destruct (str_join ", " (values st)); [discriminate|].
    injection H as <-. unfold canonical. simpl. rewrite Hreq, map_map. do 2 f_equal.
    apply (map_along (slot_ok (trafaret_parse S) parent)); [exact HF|].
    eapply Forall_impl; [|exact IH]. intros t Ht o Hto. simpl.
    now rewrite (Ht _ _ _ Hto).
  - rewrite parse_Mapping in H.
    destruct (trafaret_parse S k parent) as [x|ok] eqn:Ek; [discriminate|].
    destruct (trafaret_parse S v parent) as [x|ov] eqn:Ev; [discriminate|].
    injection H as <-. unfold mapping_finish, canonical. simpl.
    now rewrite <- (IHk _ _ _ Ek), <- (IHv _ _ _ Ev).
Qed.

(** *** Which briefs are texts *)

Definition is_text (v : pyval) : bool :=
  match v with
  | PStr _ => true
  | _ => false
  end.

Lemma brief_is_text S tr parent o :
  trafaret_parse S tr parent = inr o -> is_text (brief o) = text_brief S parent tr.
Proof.
  destruct tr; intros H; try (simpl in H; injection H as <-; reflexivity).
  - apply parse_Dict_inv in H. destruct H as (outs & _ & ->).
    unfold dict_finish, brief. simpl.
    now destruct (is_in (last_segment parent) S).
  - rewrite parse_Tuple in H. destruct (fold_left _ _ _); [discriminate|].
    unfold tuple_finish in H. destruct (str_join _ _); [discriminate|].
    now injection H as <-.
  - rewrite parse_List in H. destruct (trafaret_parse _ _ _); [discriminate|].
    now injection H as <-.
  - rewrite parse_Or in H. destruct (fold_left _ _ _); [discriminate|].
    unfold or_finish in H. destruct (str_join _ _); [discriminate|].
    now injection H as <-.
  - rewrite parse_Mapping in H. destruct (trafaret_parse _ tr1 _); [discriminate|].
    destruct (trafaret_parse _ tr2 _); [discriminate|]. now injection H as <-.
Qed.

Lemma str_items_texts items :
  (exists l, str_items items = Some l) <-> forallb is_text items = true.
Proof.
  induction items as [|v items IH]; simpl.
  - split; eauto.
  - destruct v; simpl; try (split; [intros (x & H); discriminate | discriminate]).
    rewrite <- IH. destruct (str_items items) as [l0|]; split; eauto.
Qed.

Lemma str_join_returns sep items :
  (exists s, str_join sep items = inr s) <-> forallb is_text items = true.
Proof.
  rewrite <- str_items_texts. unfold str_join.
  destruct (str_items items) as [l0|]; split; eauto;
    intros (x & H); discriminate.
Qed.

(** *** When the walk returns *)

Lemma slots_texts S parent ts outs :
  Forall2 (slot_ok (trafaret_parse S) parent) ts outs ->
  forallb is_text (map brief outs) = forallb (text_brief S parent) ts.
Proof.
  induction 1 as [|t o ts outs Hto HF IH]; [reflexivity|].
  simpl. now rewrite IH, (brief_is_text _ _ _ _ Hto).
Qed.

Lemma forallb_andb {A} (f g : A -> bool) l :
  forallb (fun x => f x && g x) l = forallb f l && forallb g l.
Proof.
  induction l as [|x l IH]; simpl; [reflexivity|]. rewrite IH.
  destruct (f x), (g x), (forallb f l), (forallb g l); reflexivity.
Qed.

Lemma slots_join_returns S keep parent ts :
  Forall (fun t => forall S parent,
            (exists o, trafaret_parse S t parent = inr o) <->
            walk_returns S t parent = true) ts ->
  (exists st s,
      fold_left (slot_turn (trafaret_parse S) keep parent) ts (inr slot_loop_init) = inr st
      /\ str_join ", " (values st) = inr s) <->
  forallb (fun t => walk_returns S t parent && text_brief S parent t) ts = true.
Proof.
  intros IH. rewrite forallb_andb, andb_true_iff. split.
  - intros (st & s & E & Hj). destruct (parse_slots_inv _ _ _ _ _ E) as (outs & HF & _ & Hv & _).
    split.
    + apply forallb_forall. intros t Ht. rewrite Forall_forall in IH.
      apply (IH t Ht). assert (Hst : exists st', fold_left (slot_turn (trafaret_parse S) keep parent) ts (inr slot_loop_init) = inr st') by eauto.
      apply slot_loop_total in Hst. rewrite Forall_forall in Hst. exact (Hst t Ht).
    + rewrite <- (slots_texts _ _ _ _ HF), <- Hv.
      apply (proj1 (str_join_returns ", " (values st))). eauto.
  - intros (Hw & Ht).
    assert (Hst : exists st, fold_left (slot_turn (trafaret_parse S) keep parent) ts (inr slot_loop_init) = inr st).
    { apply slot_loop_total. rewrite Forall_forall in *. intros t Hin.
      apply (IH t Hin). rewrite forallb_forall in Hw. exact (Hw t Hin). }
    destruct Hst as (st & E). exists st.
    destruct (parse_slots_inv _ _ _ _ _ E) as (outs & HF & _ & Hv & _).
    assert (Hj : exists s, str_join ", " (values st) = inr s).
    { apply (proj2 (str_join_returns ", " (values st))).
      now rewrite Hv, (slots_texts _ _ _ _ HF). }
    destruct Hj as (s & Hj). eauto.
Qed.

Lemma walk_returns_iff tr :
  forall S parent,
    (exists o, trafaret_parse S tr parent = inr o) <-> walk_returns S tr parent = true.
Proof.
  induction tr as [keys IH|a r mn mx|a b c d|a b c d| |ts len IH|e mn mx IH| |ts IH|vs| |k v IHk IHv|text]
    using trafaret_induction; intros S parent;
    try (simpl; split; [reflexivity | eauto]).
  - rewrite parse_Dict. simpl walk_returns. rewrite forallb_forall.
    transitivity (exists st, fold_left (dict_turn (trafaret_parse S) parent) keys
                               (inr dict_loop_init) = inr st).
    { destruct (fold_left _ keys _) as [e|st]; split; eauto.
      - intros (o & H). discriminate.
      - intros (st & H). discriminate. }
    rewrite dict_loop_total, Forall_forall. rewrite Forall_forall in IH.
    split; intros H k Hk; apply (IH k Hk), (H k Hk).
  - rewrite parse_Tuple. simpl walk_returns.
    rewrite <- (slots_join_returns S keep_req parent ts IH).
    destruct (fold_left _ ts _) as [e|st]; split.
    + intros (o & H). discriminate.
    + intros (st & s & H & _). discriminate.
    + intros (o & H). unfold tuple_finish in H.
      destruct (str_join ", " (values st)) as [e|s] eqn:Ej; [discriminate|]. eauto.
    + intros (st' & s & H & Hj). injection H as <-. unfold tuple_finish. rewrite Hj. eauto.
  - rewrite parse_List. simpl walk_returns. rewrite <- IH.
    destruct (trafaret_parse S e parent) as [x|child]; split; eauto.
  - rewrite parse_Or. simpl walk_returns.
    rewrite <- (slots_join_returns S keep_str parent ts IH).
    destruct (fold_left _ ts _) as [e|st]; split.
    + intros (o & H). discriminate.
    + intros (st & s & H & _). discriminate.
    + intros (o & H). unfold or_finish in H.
      destruct (str_join ", " (values st)) as [e|s] eqn:Ej; [discriminate|]. eauto.
    + intros (st' & s & H & Hj). injection H as <-. unfold or_finish. rewrite Hj. eauto.
  - rewrite parse_Mapping. simpl walk_returns. rewrite andb_true_iff, <- IHk, <- IHv.
    destruct (trafaret_parse S k parent) as [x|ok]; [split|].
    + intros (o & H). discriminate.
    + intros ((o & H) & _). discriminate.
    + destruct (trafaret_parse S v parent) as [x|ov]; split; eauto;
        try (intros (o & H); discriminate);
        try (intros (_ & (o & H)); discriminate).
Qed.

(** *** Walking a walked tree again *)

Lemma dict_run_written keys outs st :
  dict_run (combine (keys_written keys outs) outs) st = dict_run (combine keys outs) st.
Proof.
  revert outs st. induction keys as [|k keys IH]; intros [|o outs] st; try reflexivity.
  unfold keys_written in *. simpl. unfold dict_run in *. simpl. rewrite IH. reflexivity.
Qed.

Lemma child_ok_written S parent keys outs :
  Forall2 (child_ok (trafaret_parse S) parent) keys outs ->
  Forall (fun k => forall S parent o,
            trafaret_parse S (trafaret k) parent = inr o ->
            trafaret_parse S (walked o) parent = inr o) keys ->
  Forall2 (child_ok (trafaret_parse S) parent) (keys_written keys outs) outs.
Proof.
  induction 1 as [|k o keys outs Hko HF IH]; intros HP; [constructor|].
  inversion HP as [|? ? Hk HP']; subst. unfold keys_written. simpl. constructor.
  - unfold child_ok. simpl. apply Hk. exact Hko.
  - apply IH. exact HP'.
Qed.

Lemma slot_ok_walked S parent ts outs :
  Forall2 (slot_ok (trafaret_parse S) parent) ts outs ->
  Forall (fun t => forall S parent o,
            trafaret_parse S t parent = inr o ->
            trafaret_parse S (walked o) parent = inr o) ts ->
  Forall2 (slot_ok (trafaret_parse S) parent) (map walked outs) outs.
Proof.
  induction 1 as [|t o ts outs Hto HF IH]; intros HP; [constructor|].
  inversion HP as [|? ? Ht HP']; subst. simpl. constructor.
  - unfold slot_ok. apply Ht. exact Hto.
  - apply IH. exact HP'.
Qed.

Lemma walk_again tr :
  forall S parent o,
    trafaret_parse S tr parent = inr o -> trafaret_parse S (walked o) parent = inr o.
Proof.
  induction tr as [keys IH|a r mn mx|a b c d|a b c d| |ts len IH|e mn mx IH| |ts IH|vs| |k v IHk IHv|text]
    using trafaret_induction; intros S parent o H;
    try (simpl in H; injection H as <-; reflexivity).
  - apply parse_Dict_inv in H. destruct H as (outs & HF & ->).
    unfold dict_finish at 1. unfold walked at 1. simpl fst.
    rewrite keys_done_run. simpl app.
    change (map (fun ko => written (fst ko) (walked (snd ko)) (brief (snd ko)))
                (combine keys outs)) with (keys_written keys outs).
    rewrite (parse_Dict_returns S (keys_written keys outs) parent outs).
    + now rewrite dict_run_written.
    + now apply child_ok_written.
  - rewrite parse_Tuple in H.
    destruct (fold_left _ ts _) as [e|st] eqn:E; [discriminate|].
    apply slot_loop_returns in E. destruct E as (outs & HF & ->).
    unfold tuple_finish in H.
    destruct (str_join ", " (values (slot_run keep_req outs slot_loop_init))) as [e|joined] eqn:Ej;
      [discriminate|].
    injection H as <-. unfold walked at 1. simpl fst. rewrite slots_done_run. simpl app.
    rewrite parse_Tuple.
    assert (E : fold_left (slot_turn (trafaret_parse S) keep_req parent) (map walked outs)
                  (inr slot_loop_init) = inr (slot_run keep_req outs slot_loop_init)).
    { apply slot_loop_returns. exists outs. split; [|reflexivity].
      now apply (slot_ok_walked S parent ts). }
    rewrite E. unfold tuple_finish. rewrite Ej. now rewrite slots_done_run.
  - rewrite parse_List in H. destruct (trafaret_parse S e parent) as [x|child] eqn:E;
      [discriminate|]. injection H as <-.
    unfold list_finish at 1. unfold walked at 1. simpl fst.
    rewrite parse_List, (IH _ _ _ E). reflexivity.
  - rewrite parse_Or in H.
    destruct (fold_left _ ts _) as [e|st] eqn:E; [discriminate|].
    apply slot_loop_returns in E. destruct E as (outs & HF & ->).
    unfold or_finish in H.
    destruct (str_join ", " (values (slot_run keep_str outs slot_loop_init))) as [e|joined] eqn:Ej;
      [discriminate|].
    injection H as <-. unfold walked at 1. simpl fst. rewrite slots_done_run. simpl app.
    rewrite parse_Or.
    assert (E : fold_left (slot_turn (trafaret_parse S) keep_str parent) (map walked outs)
                  (inr slot_loop_init) = inr (slot_run keep_str outs slot_loop_init)).
    { apply slot_loop_returns. exists outs. split; [|reflexivity].
      now apply (slot_ok_walked S parent ts). }
    rewrite E. unfold or_finish. rewrite Ej. now rewrite slots_done_run.
  - rewrite parse_Mapping in H.
    destruct (trafaret_parse S k parent) as [x|ok] eqn:Ek; [discriminate|].
    destruct (trafaret_parse S v parent) as [x|ov] eqn:Ev; [discriminate|].
    injection H as <-. unfold mapping_finish at 1. unfold walked at 1. simpl fst.
    rewrite parse_Mapping, (IHk _ _ _ Ek), (IHv _ _ _ Ev). reflexivity.
Qed.

(** *** The tables *)

Lemma merge_NoDup tbl val_table :
  NoDup (PyDict.keys tbl) -> NoDup (PyDict.keys (merge tbl val_table)).
Proof.
  intros H. destruct val_table as [|kv val_table]; [exact H|].
  unfold merge. now apply PyDictFacts.NoDup_keys_update.
Qed.

Lemma merges_NoDup ts tbl :
  NoDup (PyDict.keys tbl) -> NoDup (PyDict.keys (fold_left merge ts tbl)).
Proof.
  revert tbl. induction ts as [|t ts IH]; intros tbl H; simpl; [exact H|].
  apply IH. now apply merge_NoDup.
Qed.

Lemma get_merge tbl val_table q :
  NoDup (PyDict.keys val_table) ->
  PyDict.get (merge tbl val_table) q =
    match PyDict.get val_table q with
    | Some v => Some v
    | None => PyDict.get tbl q
    end.
Proof.
  intros H. destruct val_table as [|kv val_table]; [reflexivity|].
  unfold merge. now apply PyDictFacts.get_update_dict.
Qed.

Lemma last_binding_from q ts acc :
  fold_left (fun acc t => match PyDict.get t q with
                          | Some v => Some v
                          | None => acc
                          end) ts acc =
    match last_binding q ts with
    | Some v => Some v
    | None => acc
    end.
Proof.
  unfold last_binding. revert acc. induction ts as [|t ts IH]; intros acc; simpl;
    [reflexivity|].
  rewrite IH, (IH (match PyDict.get t q with Some v => Some v | None => None end)).
  destruct (fold_left _ ts None); [reflexivity|]. now destruct (PyDict.get t q).
Qed.

(** Tables merged one after the other bind a path as the last of them that
    binds it does. *)
Lemma get_merges ts tbl q :
  Forall (fun t => NoDup (PyDict.keys t)) ts ->
  PyDict.get (fold_left merge ts tbl) q =
    match last_binding q ts with
    | Some v => Some v
    | None => PyDict.get tbl q
    end.
Proof.
  intros H. revert tbl. induction H as [|t ts Ht HF IH]; intros tbl; simpl; [reflexivity|].
  rewrite IH, (get_merge _ _ _ Ht). unfold last_binding at 2. simpl.
  rewrite last_binding_from.
  destruct (last_binding q ts); [reflexivity|]. now destruct (PyDict.get t q).
Qed.

Lemma tables_dict_finish parent b st :
  tables (dict_finish parent b st) =
    if b then PyDict.set (validation_tables st) parent (PList (trafarets st))
    else validation_tables st.
Proof. now destruct b. Qed.

Lemma brief_dict_finish parent b st :
  brief (dict_finish parent b st) = if b then PStr parent else PDict (req_schema st).
Proof. reflexivity. Qed.

Lemma canonical_dict_finish parent b st :
  canonical (dict_finish parent b st) = PDict (req_schema st).
Proof. reflexivity. Qed.

Lemma walked_dict_finish parent b st :
  walked (dict_finish parent b st) = Dict (keys_done st).
Proof. reflexivity. Qed.

Lemma tables_NoDup tr :
  forall S parent o,
    trafaret_parse S tr parent = inr o -> NoDup (PyDict.keys (tables o)).
Proof.
  induction tr as [keys IH|a r mn mx|a b c d|a b c d| |ts len IH|e mn mx IH| |ts IH|vs| |k v IHk IHv|text]
    using trafaret_induction; intros S parent o H;
    try (simpl in H; injection H as <-; constructor).
  - apply parse_Dict_inv in H. destruct H as (outs & _ & ->).
    unfold dict_finish, tables. simpl. rewrite validation_tables_run.
    destruct (is_in (last_segment parent) S).
    + apply PyDictFacts.NoDup_keys_set. apply merges_NoDup. constructor.
    + apply merges_NoDup. constructor.
  - rewrite parse_Tuple in H.
    destruct (fold_left _ ts _) as [e|st] eqn:E; [discriminate|].
    apply parse_slots_inv in E. destruct E as (outs & _ & _ & _ & _ & Ht).
    unfold tuple_finish in H. destruct (str_join _ _); [discriminate|].
    injection H as <-. unfold tables. simpl. rewrite Ht. apply merges_NoDup. constructor.
  - rewrite parse_List in H. destruct (trafaret_parse S e parent) as [x|child] eqn:E;
      [discriminate|]. injection H as <-. exact (IH _ _ _ E).
  - rewrite parse_Or in H.
    destruct (fold_left _ ts _) as [e|st] eqn:E; [discriminate|].
    apply parse_slots_inv in E. destruct E as (outs & _ & _ & _ & _ & Ht).
    unfold or_finish in H. destruct (str_join _ _); [discriminate|].
    injection H as <-. unfold tables. simpl. rewrite Ht. apply merges_NoDup. constructor.
  - rewrite parse_Mapping in H.
    destruct (trafaret_parse S k parent); [discriminate|].
    destruct (trafaret_parse S v parent); [discriminate|].
    injection H as <-. constructor.
Qed.

Lemma outs_NoDup {X} (R : X -> outcome -> Prop) xs outs :
  Forall2 R xs outs ->
  (forall x o, R x o -> NoDup (PyDict.keys (tables o))) ->
  Forall (fun t => NoDup (PyDict.keys t)) (map tables outs).
Proof.
  induction 1; intros H'; simpl; constructor; eauto.
Qed.

Lemma merges_nil ts :
  Forall (fun t => t = []) ts -> fold_left merge ts [] = [].
Proof. induction 1 as [|t ts -> _ IH]; simpl; auto. Qed.

(** With no registered name, no table is recorded. *)
Lemma tables_unregistered tr :
  forall parent o, trafaret_parse [] tr parent = inr o -> tables o = [].
Proof.
  induction tr as [keys IH|a r mn mx|a b c d|a b c d| |ts len IH|e mn mx IH| |ts IH|vs| |k v IHk IHv|text]
    using trafaret_induction; intros parent o H;
    try (simpl in H; injection H as <-; reflexivity).
  - apply parse_Dict_inv in H. destruct H as (outs & HF & ->).
    rewrite tables_dict_finish. change (is_in (last_segment parent) []) with false.
    cbv iota. rewrite validation_tables_run.
    rewrite (map_snd_combine tables _ _ _ HF). apply merges_nil.
    clear - HF IH. induction HF as [|k o keys outs Hko HF IH']; simpl; [constructor|].
    inversion IH as [|? ? Hk IHks]; subst. constructor; [exact (Hk _ _ Hko) | auto].
  - rewrite parse_Tuple in H.
    destruct (fold_left _ ts _) as [e|st] eqn:E; [discriminate|].
    apply parse_slots_inv in E. destruct E as (outs & HF & _ & _ & _ & Ht).
    unfold tuple_finish in H. destruct (str_join _ _); [discriminate|].
    injection H as <-. unfold tables. simpl. rewrite Ht. apply merges_nil.
    clear - HF IH. induction HF as [|t o ts outs Hto HF IH']; simpl; [constructor|].
    inversion IH as [|? ? Hk IHks]; subst. constructor; [exact (Hk _ _ Hto) | auto].
  - rewrite parse_List in H. destruct (trafaret_parse [] e parent) as [x|child] eqn:E;
      [discriminate|]. injection H as <-. exact (IH _ _ E).
  - rewrite parse_Or in H.
    destruct (fold_left _ ts _) as [e|st] eqn:E; [discriminate|].
    apply parse_slots_inv in E. destruct E as (outs & HF & _ & _ & _ & Ht).
    unfold or_finish in H. destruct (str_join _ _); [discriminate|].
    injection H as <-. unfold tables. simpl. rewrite Ht. apply merges_nil.
    clear - HF IH. induction HF as [|t o ts outs Hto HF IH']; simpl; [constructor|].
    inversion IH as [|? ? Hk IHks]; subst. constructor; [exact (Hk _ _ Hto) | auto].
  - rewrite parse_Mapping in H.
    destruct (trafaret_parse [] k parent); [discriminate|].
    destruct (trafaret_parse [] v parent); [discriminate|].
    now injection H as <-.
Qed.

(** *** Paths *)

Lemma prefix_nil t : prefix "" t = true.
Proof. now destruct t. Qed.


Lemma prefix_app s t : prefix s (s ++ t) = true.
Proof.
  induction s as [|c s IH]; simpl; [apply prefix_nil|].
  destruct (ascii_dec c c); [exact IH | congruence].
Qed.

Lemma prefix_trans a b c :
  prefix a b = true -> prefix b c = true -> prefix a c = true.
Proof.
  revert b c. induction a as [|x a IH]; intros b c Hab Hbc; [apply prefix_nil|].
  destruct b as [|y b]; [discriminate|]. destruct c as [|z c]; [discriminate|].
  simpl in *. destruct (ascii_dec x y); [subst y | discriminate].
  destruct (ascii_dec x z); [|discriminate]. eauto.
Qed.


Lemma append_assoc (a b c : string) : (a ++ b) ++ c = a ++ (b ++ c).
Proof. induction a as [|x a IH]; simpl; congruence. Qed.





Lemma map_pair_combine {A B C D} (f : A -> C) (g : B -> D) (l : list A) (l' : list B) :
  map (fun ab => (f (fst ab), g (snd ab))) (combine l l') = combine (map f l) (map g l').
Proof.
  revert l'. induction l as [|a l IH]; intros [|b l']; simpl; try reflexivity.
  now rewrite IH.
Qed.

Lemma get_default_value_written (k : Key) t v :
  get_default_value (written k t v) = get_default_value k.
Proof. reflexivity. Qed.

Lemma row_default_row (key : Key) :
  row_default (row key) = Some (PStr (py_str (get_default_value key))).
Proof. reflexivity. Qed.

(** *** The claims on the walker *)

(** C5, as the code has it: over a [Mapping] whose key and value walks
    return, the walk returns the brief ['{key_brief: value_brief}'] and, as
    requirement schema, the single-entry mapping from the text of the key's
    schema to the text of the value's schema. *)
Theorem mapping_walk (S : list string) (key value : trafaret_) (parent : string)
    (k v : outcome) :
  trafaret_parse S key parent = inr k ->
  trafaret_parse S value parent = inr v ->
  exists o,
    trafaret_parse S (Mapping key value) parent = inr o
    /\ brief o = PStr ("{" ++ py_str (brief k) ++ ": " ++ py_str (brief v) ++ "}")
    /\ canonical o = PDict [(py_str (canonical k), PStr (py_str (canonical v)))].
Proof.
  intros Hk Hv. exists (mapping_finish k v).
  rewrite parse_Mapping, Hk, Hv. repeat split.
Qed.

Lemma mapping_walk_witness :
  exists o,
    trafaret_parse [] (Mapping a_string (List_ an_int PNone PNone)) "" = inr o
    /\ brief o = PStr "{String(allow_blank: False): List([Integer()], )}"
    /\ canonical o = PDict [("String", PStr "['Integer']")].
Proof.
  exact (mapping_walk [] a_string (List_ an_int PNone PNone) "" _ _ eq_refl eq_refl).
Defined.

(** C5 as stated fails: with ["x"] registered, the walk of
    [Mapping(String, Dict(...))] at ["x"] returns no table, though the walk
    of its value recorded one, and its requirement schema maps to the text of
    the value's schema, not to that schema. *)
Lemma mapping_keeps_no_table :
  exists k v o,
    trafaret_parse ["x"] a_string "x" = inr k
    /\ trafaret_parse ["x"] address "x" = inr v
    /\ trafaret_parse ["x"] (Mapping a_string address) "x" = inr o
    /\ PyDict.keys (PyDict.update (tables k) (tables v)) = ["x"]
    /\ tables o = []
    /\ canonical v = PDict [("street", PStr "String"); ("zip", PStr "Integer")]
    /\ canonical o = PDict [("String", PStr "{'street': 'String', 'zip': 'Integer'}")].
Proof.
  do 3 eexists. repeat split; reflexivity.
Qed.

(** C7, as the code has it: the walk of a Record returns exactly when the
    walks of its fields' validators return.  When they do, its requirement
    schema is the ordered mapping from field name to the field's schema,
    whether or not the last segment of the path is registered; when it is,
    the brief is the path and the table of rows is recorded under the path,
    and when it is not, the brief is the requirement schema.  The schema of a
    node is the same under every list of registered names and at every
    path. *)
Theorem record_walk :
  (forall S keys parent outs,
      Forall2 (fun k o => trafaret_parse S (trafaret k) (parent ++ "." ++ name k) = inr o)
              keys outs ->
      exists o,
        trafaret_parse S (Dict keys) parent = inr o
        /\ canonical o =
             PDict (PyDict.of_pairs (combine (map name keys) (map canonical outs)))
        /\ (is_in (last_segment parent) S = true ->
            brief o = PStr parent
            /\ PyDict.get (tables o) parent = Some (PList (rows_of keys outs)))
        /\ (is_in (last_segment parent) S = false -> brief o = canonical o))
  /\ (forall S S' tr parent parent' o o',
        trafaret_parse S tr parent = inr o ->
        trafaret_parse S' tr parent' = inr o' ->
        canonical o = canonical o' /\ canonical o = req_of tr)
  /\ (forall S keys parent,
        (exists o, trafaret_parse S (Dict keys) parent = inr o) <->
        Forall (fun k => exists c,
                  trafaret_parse S (trafaret k) (parent ++ "." ++ name k) = inr c) keys).
Proof.
  split; [|split].
  - intros S keys parent outs HF.
    exists (dict_finish parent (is_in (last_segment parent) S)
              (dict_run (combine keys outs) dict_loop_init)).
    split; [exact (parse_Dict_returns S keys parent outs HF)|].
    rewrite canonical_dict_finish, brief_dict_finish, tables_dict_finish.
    rewrite req_schema_run, trafarets_run, map_pair_combine. split; [reflexivity|].
    split; intros ->; [|reflexivity]. split; [reflexivity|].
    apply PyDictFacts.get_set_same.
  - intros S S' tr parent parent' o o' H H'.
    rewrite (canonical_is_req_of tr _ _ _ H), (canonical_is_req_of tr _ _ _ H'). auto.
  - intros S keys parent. rewrite parse_Dict.
    rewrite <- (dict_loop_total (trafaret_parse S) parent keys dict_loop_init).
    destruct (fold_left _ keys _) as [e|st]; split.
    + intros (o & H). discriminate.
    + intros (st & H). discriminate.
    + intros _. now exists st.
    + intros _. eexists. reflexivity.
Qed.

Lemma record_walk_witness :
  exists o,
    trafaret_parse ["addr"] address "root.addr" = inr o
    /\ brief o = PStr "root.addr"
    /\ canonical o = PDict [("street", PStr "String"); ("zip", PStr "Integer")]
    /\ PyDict.get (tables o) "root.addr" =
         Some (PList [PList [PStr "street"; PStr "N/A"; PStr "False";
                             PStr "String(allow_blank: False)"; PStr "None"];
                      PList [PStr "zip"; PStr "N/A"; PStr "False";
                             PStr "Integer()"; PStr "None"]]).
Proof.
  destruct (proj1 record_walk ["addr"]
              [field "street" a_string; field "zip" an_int] "root.addr"
              [(a_string, PStr "String(allow_blank: False)", PStr "String", []);
               (an_int, PStr "Integer()", PStr "Integer", [])])
    as (o & Ho & Hc & Hreg & _).
  - repeat constructor.
  - destruct (Hreg eq_refl) as (Hb & Ht). exists o. repeat split; assumption.
Defined.

(** C7 as stated fails: the Record [Dict({'f': Or(address, Null)})] walked
    at ['root.addr'], whose last segment is registered, records no table and
    returns no brief and no requirement schema; its walk raises [TypeError],
    as the walk of its one field does, the brief of the alternative
    [address] at ['root.addr.f'] being a mapping. *)
Lemma record_walk_raises_with_its_field :
  is_in (last_segment "root.addr") ["addr"] = true
  /\ trafaret_parse ["addr"] (Or [address; Null]) "root.addr.f" = inl TypeError
  /\ trafaret_parse ["addr"] (Dict [field "f" (Or [address; Null])]) "root.addr"
     = inl TypeError
  /\ ~ (exists o,
          trafaret_parse ["addr"] (Dict [field "f" (Or [address; Null])]) "root.addr"
            = inr o).
Proof.
  repeat split. intros (o & H). discriminate H.
Qed.

(** C8: the default cell of a field's documentation row is ['N/A'] for the
    unset default, the two quote characters for the empty string, and the
    text of any other default; a walk leaves the defaults and the default
    cells as they were, and walking the walked tree again returns the same
    outcome. *)
Theorem default_rendering :
  (forall key : Key,
      (default key = _empty -> row_default (row key) = Some (PStr "N/A"))
      /\ (default key = Explicit (PStr "") ->
          row_default (row key) = Some (PStr (dquote ++ dquote)))
      /\ (forall v, default key = Explicit v -> v <> PStr "" ->
          row_default (row key) = Some (PStr (py_str v))))
  /\ (forall S tr parent o,
        trafaret_parse S tr parent = inr o ->
        trafaret_parse S (walked o) parent = inr o)
  /\ (forall S keys parent o,
        trafaret_parse S (Dict keys) parent = inr o ->
        exists keys',
          walked o = Dict keys'
          /\ map default keys' = map default keys
          /\ map (fun k => row_default (row k)) keys'
             = map (fun k => row_default (row k)) keys).
Proof.
  split; [|split].
  - intros key. rewrite row_default_row. unfold get_default_value.
    split; [intros ->; reflexivity|]. split; [intros ->; reflexivity|].
    intros v -> Hv. destruct v as [| | | |s| | |]; try reflexivity.
    destruct s; [now destruct Hv | reflexivity].
  - intros S tr parent o. apply walk_again.
  - intros S keys parent o H. apply parse_Dict_inv in H. destruct H as (outs & HF & ->).
    exists (keys_written keys outs). rewrite walked_dict_finish, keys_done_run.
    split; [reflexivity|]. unfold keys_written.
    induction HF as [|k o keys outs _ HF IH]; [split; reflexivity|].
    destruct IH as (IH1 & IH2). cbn [map combine].
    split; f_equal; assumption || reflexivity.
Qed.

Lemma default_rendering_witness :
  row_default (row (field "a" a_string)) = Some (PStr "N/A")
  /\ exists o,
       trafaret_parse ["addr"] address "root.addr" = inr o
       /\ trafaret_parse ["addr"] (walked o) "root.addr" = inr o.
Proof.
  split.
  - exact (proj1 (proj1 default_rendering (field "a" a_string)) eq_refl).
  - eexists. split; [reflexivity|].
    exact (proj1 (proj2 default_rendering) ["addr"] address "root.addr" _ eq_refl).
Defined.

Lemma registered_record_entry S keys parent o :
  trafaret_parse S (Dict keys) parent = inr o ->
  is_in (last_segment parent) S = true ->
  exists rows, PyDict.get (tables o) parent = Some (PList rows) /\ brief o = PStr parent.
Proof.
  intros H Hreg. apply parse_Dict_inv in H. destruct H as (outs & _ & ->).
  rewrite tables_dict_finish, brief_dict_finish, Hreg.
  eexists. split; [apply PyDictFacts.get_set_same | reflexivity].
Qed.



(** C9, as the code has it: with the list of registered names as shipped,
    the walk returns exactly when no slot of a [Tuple] or an [Or] in the tree
    is a Record; when it returns it records no table, and the brief of a
    Record is its requirement schema, never its path. *)
Theorem shipped_registry_inert (tr : trafaret_) (parent : string) :
  ((exists o, trafaret_parse subtraf_names tr parent = inr o) <->
   walk_returns subtraf_names tr parent = true)
  /\ (forall o,
        trafaret_parse subtraf_names tr parent = inr o ->
        tables o = []
        /\ (forall keys, tr = Dict keys ->
            brief o = canonical o /\ brief o = req_of tr /\ brief o <> PStr parent)).
Proof.
  split; [apply walk_returns_iff|]. intros o H. split.
  - exact (tables_unregistered tr parent o H).
  - intros keys ->. pose proof (canonical_is_req_of _ _ _ _ H) as Hc.
    apply parse_Dict_inv in H. destruct H as (outs & _ & ->).
    rewrite brief_dict_finish in *. rewrite canonical_dict_finish in *.
    change (is_in (last_segment parent) subtraf_names) with false. cbv iota.
    repeat split; [exact Hc | discriminate].
Qed.

Lemma shipped_registry_inert_witness :
  exists o,
    trafaret_parse subtraf_names address "root.addr" = inr o
    /\ tables o = []
    /\ brief o = PDict [("street", PStr "String"); ("zip", PStr "Integer")].
Proof.
  eexists. split; [reflexivity|].
  destruct (proj2 (shipped_registry_inert address "root.addr") _ eq_refl) as (Ht & Hb).
  split; [exact Ht|]. exact (proj1 (proj2 (Hb _ eq_refl))).
Defined.

(** C9 as stated fails: the brief of an unregistered Record is its
    requirement schema, not the list of its rows; and the walk of an [Or]
    with a Record among its alternatives does not return. *)
Lemma unregistered_record_brief_is_schema :
  (exists o child,
      trafaret_parse subtraf_names a_string ".a" = inr child
      /\ trafaret_parse subtraf_names (Dict [field "a" a_string]) "" = inr o
      /\ brief o = PDict [("a", PStr "String")]
      /\ rows_of [field "a" a_string] [child] =
           [PList [PStr "a"; PStr "N/A"; PStr "False";
                   PStr "String(allow_blank: False)"; PStr "None"]]
      /\ brief o <> PList (rows_of [field "a" a_string] [child]))
  /\ trafaret_parse subtraf_names (Or [address; Null]) "" = inl TypeError.
Proof.
  split; [|reflexivity].
  do 2 eexists. repeat split; try reflexivity. discriminate.
Qed.

End WalkerFacts.

(** ** More on the field-group key *)

Module FieldGroupCalls.
Import FieldGroup.

Lemma is_in_In k l : is_in k l = true <-> In k l.
Proof.
  unfold is_in. rewrite existsb_exists. split.
  - intros (x & Hx & E). apply String.eqb_eq in E. now subst.
  - intros H. exists k. split; [exact H | apply String.eqb_refl].
Qed.

Lemma mem_set {V} (d : PyDict.t V) k v y :
  PyDict.mem (PyDict.set d k v) y = PyDict.mem d y || String.eqb k y.
Proof.
  rewrite !FieldGroupFacts.mem_true_get, PyDictFacts.get_set.
  destruct (String.eqb k y); [now rewrite orb_true_r|].
  now rewrite orb_false_r.
Qed.

Lemma filter_filter {A} (p q : A -> bool) l :
  filter p (filter q l) = filter (fun x => q x && p x) l.
Proof.
  induction l as [|x l IH]; simpl; [reflexivity|].
  destruct (q x); simpl; [destruct (p x); now rewrite IH | exact IH].
Qed.

Lemma keys_update_pairs {V} (f : string -> V) (l : list string) (d : PyDict.t V) :
  PyDict.keys (PyDict.update d (map (fun k => (k, f k)) l)) =
    (PyDict.keys d ++ filter (fun y => negb (PyDict.mem d y)) (uniq l))%list.
Proof.
  unfold PyDict.update. revert d.
  induction l as [|x l IH]; intros d; simpl; [now rewrite app_nil_r|].
  rewrite IH, PyDictFacts.keys_set, filter_filter.
  assert (E : filter (fun y => negb (PyDict.mem (PyDict.set d x (f x)) y)) (uniq l)
              = filter (fun y => negb (String.eqb x y) && negb (PyDict.mem d y)) (uniq l)).
  { apply filter_ext. intros y. rewrite mem_set.
    destruct (PyDict.mem d y), (String.eqb x y); reflexivity. }
  rewrite E. destruct (PyDict.mem d x); simpl; [reflexivity|].
  now rewrite <- app_assoc.
Qed.

Lemma pairs_agree (data data' : PyDict.t value) (l : list string) :
  (forall k, In k l -> PyDict.get data k = PyDict.get data' k) ->
  map (fun k => (k, data_get data k)) (filter (fun k => PyDict.mem data k) l) =
  map (fun k => (k, data_get data' k)) (filter (fun k => PyDict.mem data' k) l).
Proof.
  induction l as [|x l IH]; intros H; simpl; [reflexivity|].
  rewrite !FieldGroupFacts.mem_true_get, <- (H x (or_introl eq_refl)).
  assert (IH' := IH (fun k Hk => H k (or_intror Hk))).
  destruct (PyDict.get data x) eqn:E; simpl; [|exact IH'].
  unfold data_get at 1 3. rewrite <- (H x (or_introl eq_refl)), E. now rewrite IH'.
Qed.

(** When the inner validator returns a mapping, the call yields one triple
    per item of it, in its order, and ends normally; the values are handed on
    as they are, a [DataError] among them too. *)
Theorem call_success_items
    (catch_error : trafaret -> value -> value) (self : KeysSubset)
    (data : PyDict.t value) (items : list (string * value)) :
  catch_error (inner self) (passed_to_inner self data) = VDict items ->
  map item_of (yielded (__call__ catch_error self data)) = items
  /\ raised (__call__ catch_error self data) = None
  /\ (forall k e, In (k, VDataError e) items ->
        In (k, VDataError e, {| pending := keys_names self |})
           (yielded (__call__ catch_error self data))).
Proof.
  intros H. unfold __call__. unfold passed_to_inner in H. rewrite H. simpl.
  split; [|split; [reflexivity|]].
  - rewrite map_map. unfold item_of. simpl. rewrite <- (map_id items) at 2.
    apply map_ext. now intros [k v].
  - intros k e Hin. apply in_map_iff. exists (k, VDataError e). now split.
Qed.

Lemma call_success_items_witness :
  map item_of
      (yielded (__call__ (fun _ _ => VDict [("pwd", VDataError (VStr "Not equal"))])
                         pwd_rule [("pwd", VStr "a"); ("pwd1", VStr "c")]))
    = [("pwd", VDataError (VStr "Not equal"))].
Proof.
  exact (proj1 (call_success_items
                  (fun _ _ => VDict [("pwd", VDataError (VStr "Not equal"))])
                  pwd_rule [("pwd", VStr "a"); ("pwd1", VStr "c")] _ eq_refl)).
Defined.

(** The call ends normally exactly when what [catch_error] returns is a
    mapping or a failure whose payload is a mapping; when it raises, it has
    yielded nothing; when it ends normally, it has yielded one triple per
    item of that mapping. *)
Theorem call_ends_normally_iff
    (catch_error : trafaret -> value -> value) (self : KeysSubset)
    (data : PyDict.t value) :
  (raised (__call__ catch_error self data) = None <->
   exists items,
     catch_error (inner self) (passed_to_inner self data) = VDict items
     \/ catch_error (inner self) (passed_to_inner self data) = VDataError (VDict items))
  /\ (raised (__call__ catch_error self data) <> None ->
      __call__ catch_error self data = {| yielded := []; raised := Some AttributeError |})
  /\ (forall items,
        catch_error (inner self) (passed_to_inner self data) = VDict items
        \/ catch_error (inner self) (passed_to_inner self data) = VDataError (VDict items) ->
        map (fun t => fst (fst t)) (yielded (__call__ catch_error self data))
          = map fst items).
Proof.
  unfold __call__, passed_to_inner.
  destruct (catch_error (inner self) (VDict (subdict self data))) as [| | | | |items|e];
    simpl.
  1-5: (split; [split; [discriminate | intros (items & [H|H]); discriminate]
               | split; [reflexivity | intros items [H|H]; discriminate]]).
  - split; [split; [intros _; exists items; now left | reflexivity]|].
    split; [congruence|]. intros items' [H|H]; [|discriminate].
    injection H as <-. now rewrite map_map.
  - destruct e as [| | | | |items|e']; simpl.
    1-5,7: (split; [split; [discriminate | intros (items & [H|H]); discriminate]
                   | split; [reflexivity | intros items [H|H]; discriminate]]).
    split; [split; [intros _; exists items; now right | reflexivity]|].
    split; [congruence|]. intros items' [H|H]; [discriminate|].
    injection H as <-. now rewrite map_map.
Qed.

(** Every triple a call yields carries the generator of all the names of
    [keys_names()], whatever the input holds and whatever the inner validator
    answers: names absent from the input are listed too. *)
Theorem call_triples_carry_keys_names
    (catch_error catch_error' : trafaret -> value -> value) (self : KeysSubset)
    (data data' : PyDict.t value) (t t' : triple) :
  In t (yielded (__call__ catch_error self data)) ->
  In t' (yielded (__call__ catch_error' self data')) ->
  pending (snd t) = keys_names self /\ snd t = snd t'.
Proof.
  assert (G : forall ce d x, In x (yielded (__call__ ce self d)) ->
                             snd x = {| pending := keys_names self |}).
  { intros ce d x. unfold __call__.
    destruct (ce (inner self) (VDict (subdict self d))) as [| | | | |items|e]; simpl;
      try contradiction.
    - intros Hin. apply in_map_iff in Hin. now destruct Hin as (kv & <- & _).
    - destruct e as [| | | | |items|e']; simpl; try contradiction.
      intros Hin. apply in_map_iff in Hin. now destruct Hin as (kv & <- & _). }
  intros H H'. rewrite (G _ _ _ H), (G _ _ _ H'). now split.
Qed.

Lemma call_triples_carry_keys_names_witness :
  pending (snd ("pwd", VStr "a", {| pending := ["pwd"; "pwd1"] |})) = ["pwd"; "pwd1"].
Proof.
  exact (proj1 (call_triples_carry_keys_names
                  (fun _ v => v) (fun _ v => v) pwd_rule
                  [("pwd", VStr "a")] [("pwd", VStr "a")]
                  ("pwd", VStr "a", {| pending := ["pwd"; "pwd1"] |})
                  ("pwd", VStr "a", {| pending := ["pwd"; "pwd1"] |})
                  (or_introl eq_refl) (or_introl eq_refl))).
Defined.

(** A call looks at the input only under the names of [keys_names()]: two
    inputs that agree on them (absent in both, or bound to the same value)
    give the same sub-record and the same triples. *)
Theorem call_reads_only_keys_names
    (catch_error : trafaret -> value -> value) (self : KeysSubset)
    (data data' : PyDict.t value) :
  (forall k, In k (keys_names self) -> PyDict.get data k = PyDict.get data' k) ->
  subdict self data = subdict self data'
  /\ __call__ catch_error self data = __call__ catch_error self data'.
Proof.
  intros H.
  assert (E : subdict self data = subdict self data').
  { unfold subdict. now rewrite (pairs_agree data data' _ H). }
  split; [exact E|]. unfold __call__. now rewrite E.
Qed.

Lemma call_reads_only_keys_names_witness :
  subdict pwd_rule [("pwd", VStr "a"); ("key1", VStr "b")]
    = subdict pwd_rule [("other", VInt 1); ("pwd", VStr "a")].
Proof.
  refine (proj1 (call_reads_only_keys_names (fun _ v => v) pwd_rule
                   [("pwd", VStr "a"); ("key1", VStr "b")]
                   [("other", VInt 1); ("pwd", VStr "a")] _)).
  intros k [<-|[<-|[]]]; reflexivity.
Defined.

(** The sub-record lists the names of [keys_names()] that the input has in
    the order [keys_names()] first yields them, a repeated name once. *)
Theorem subdict_keys_in_first_yield_order (self : KeysSubset) (data : PyDict.t value) :
  PyDict.keys (subdict self data) =
    uniq (filter (fun k => PyDict.mem data k) (keys_names self)).
Proof.
  unfold subdict, PyDict.of_pairs. rewrite keys_update_pairs. simpl.
  induction (uniq _) as [|x l IH]; simpl; congruence.
Qed.

End FieldGroupCalls.

(** ** More on the documentation walker *)

Module WalkerShape.
Import Walker WalkerFacts.

Lemma existsb_false_In {A} (f : A -> bool) l x :
  existsb f l = false -> In x l -> f x = false.
Proof.
  induction l as [|y l IH]; simpl; [contradiction|].
  intros H [->|Hin]; apply orb_false_iff in H; destruct H; auto.
Qed.

Lemma recordless_text S parent tr : has_record tr = false -> text_brief S parent tr = true.
Proof. destruct tr; simpl; congruence. Qed.

Lemma recordless_returns tr :
  forall S parent, has_record tr = false -> walk_returns S tr parent = true.
Proof.
  induction tr as [keys IH|a r mn mx|a b c d|a b c d| |ts len IH|e mn mx IH| |ts IH|vs| |k v IHk IHv|text]
    using trafaret_induction; intros S parent H; simpl in *; try reflexivity;
    try discriminate.
  - apply forallb_forall. intros t Ht. rewrite Forall_forall in IH.
    pose proof (existsb_false_In _ _ _ H Ht) as Hr.
    now rewrite (IH t Ht S parent Hr), recordless_text.
  - auto.
  - apply forallb_forall. intros t Ht. rewrite Forall_forall in IH.
    pose proof (existsb_false_In _ _ _ H Ht) as Hr.
    now rewrite (IH t Ht S parent Hr), recordless_text.
  - apply orb_false_iff in H. destruct H as (Hk & Hv).
    now rewrite IHk, IHv.
Qed.

Lemma slot_loop_ext (parse parse' : trafaret_ -> string -> result) keep parent parent' ts :
  (forall t, In t ts -> parse t parent = parse' t parent') ->
  forall acc,
    fold_left (slot_turn parse keep parent) ts acc =
    fold_left (slot_turn parse' keep parent') ts acc.
Proof.
  induction ts as [|t ts IH]; intros H acc; simpl; [reflexivity|].
  rewrite IH by (intros; apply H; now right).
  f_equal. unfold slot_turn. destruct acc; [reflexivity|].
  now rewrite (H t (or_introl eq_refl)).
Qed.

Lemma recordless_same tr :
  has_record tr = false ->
  forall S parent S' parent',
    trafaret_parse S tr parent = trafaret_parse S' tr parent'.
Proof.
  induction tr as [keys IH|a r mn mx|a b c d|a b c d| |ts len IH|e mn mx IH| |ts IH|vs| |k v IHk IHv|text]
    using trafaret_induction; intros H S parent S' parent'; try reflexivity.
  - discriminate.
  - rewrite !parse_Tuple. simpl in H. rewrite Forall_forall in IH.
    rewrite (slot_loop_ext (trafaret_parse S) (trafaret_parse S') keep_req parent parent');
      [reflexivity|].
    intros t Ht. apply (IH t Ht). exact (existsb_false_In _ _ _ H Ht).
  - rewrite !parse_List. simpl in H. now rewrite (IH H S parent S' parent').
  - rewrite !parse_Or. simpl in H. rewrite Forall_forall in IH.
    rewrite (slot_loop_ext (trafaret_parse S) (trafaret_parse S') keep_str parent parent');
      [reflexivity|].
    intros t Ht. apply (IH t Ht). exact (existsb_false_In _ _ _ H Ht).
  - rewrite !parse_Mapping. simpl in H. apply orb_false_iff in H. destruct H as (Hk & Hv).
    now rewrite (IHk Hk S parent S' parent'), (IHv Hv S parent S' parent').
Qed.

Lemma slots_untouched S parent ts outs :
  Forall2 (slot_ok (trafaret_parse S) parent) ts outs ->
  Forall (fun t => forall o, trafaret_parse S t parent = inr o ->
                             walked o = t /\ tables o = []) ts ->
  map walked outs = ts /\ fold_left merge (map tables outs) [] = [].
Proof.
  intros HF H. split.
  - rewrite <- (map_id ts). apply (map_along _ _ _ _ _ HF).
    eapply Forall_impl; [|exact H]. intros t Ht o Ho. exact (proj1 (Ht o Ho)).
  - apply merges_nil. clear - HF H.
    induction HF as [|t o ts outs Hto HF IH]; simpl; [constructor|].
    inversion H as [|? ? Ht Hts]; subst. constructor; [exact (proj2 (Ht o Hto)) | auto].
Qed.

Lemma recordless_outcome tr :
  has_record tr = false ->
  forall S parent o,
    trafaret_parse S tr parent = inr o -> walked o = tr /\ tables o = [].
Proof.
  induction tr as [keys IH|a r mn mx|a b c d|a b c d| |ts len IH|e mn mx IH| |ts IH|vs| |k v IHk IHv|text]
    using trafaret_induction; intros Hr S parent o H;
    try (simpl in H; injection H as <-; split; reflexivity).
  - discriminate.
  - rewrite parse_Tuple in H.
    destruct (fold_left _ ts _) as [e|st] eqn:E; [discriminate|].
    apply parse_slots_inv in E. destruct E as (outs & HF & Hs & _ & _ & Ht).
    unfold tuple_finish in H. destruct (str_join _ _); [discriminate|].
    injection H as <-. unfold walked, tables. simpl. rewrite Hs, Ht.
    destruct (slots_untouched S parent ts outs HF) as (-> & ->); [|split; reflexivity].
    simpl in Hr. rewrite Forall_forall in *. intros t Hin o Ho.
    exact (IH t Hin (existsb_false_In _ _ _ Hr Hin) S parent o Ho).
  - rewrite parse_List in H. destruct (trafaret_parse S e parent) as [x|child] eqn:E;
      [discriminate|]. injection H as <-. simpl in Hr.
    destruct (IH Hr S parent child E) as (Hw & Ht).
    destruct child as [[[w b] c] t]. unfold walked, tables, list_finish in *.
    simpl in *. now subst.
  - rewrite parse_Or in H.
    destruct (fold_left _ ts _) as [e|st] eqn:E; [discriminate|].
    apply parse_slots_inv in E. destruct E as (outs & HF & Hs & _ & _ & Ht).
    unfold or_finish in H. destruct (str_join _ _); [discriminate|].
    injection H as <-. unfold walked, tables. simpl. rewrite Hs, Ht.
    destruct (slots_untouched S parent ts outs HF) as (-> & ->); [|split; reflexivity].
    simpl in Hr. rewrite Forall_forall in *. intros t Hin o Ho.
    exact (IH t Hin (existsb_false_In _ _ _ Hr Hin) S parent o Ho).
  - rewrite parse_Mapping in H. simpl in Hr. apply orb_false_iff in Hr.
    destruct Hr as (Hk & Hv).
    destruct (trafaret_parse S k parent) as [x|ok] eqn:Ek; [discriminate|].
    destruct (trafaret_parse S v parent) as [x|ov] eqn:Ev; [discriminate|].
    injection H as <-. destruct (IHk Hk S parent ok Ek) as (Hwk & _).
    destruct (IHv Hv S parent ov Ev) as (Hwv & _).
    destruct ok as [[[wk bk] ck] tk], ov as [[[wv bv] cv] tv].
    unfold walked, tables, mapping_finish in *. simpl in *. now subst.
Qed.

(** A tree that holds no Record is walked to one and the same result under
    every path and every list of registered names: the walk returns, its
    brief is a text, it records no table and it leaves the tree as it was. *)
Theorem recordless_walk (tr : trafaret_) :
  has_record tr = false ->
  exists o,
    (forall S parent, trafaret_parse S tr parent = inr o)
    /\ walked o = tr
    /\ tables o = []
    /\ is_text (brief o) = true
    /\ canonical o = req_of tr.
Proof.
  intros H.
  destruct (proj2 (walk_returns_iff tr [] "") (recordless_returns tr [] "" H)) as (o & Ho).
  exists o. split; [intros S parent; now rewrite (recordless_same tr H S parent [] "")|].
  destruct (recordless_outcome tr H _ _ _ Ho) as (Hw & Ht).
  split; [exact Hw|]. split; [exact Ht|].
  split; [rewrite (brief_is_text _ _ _ _ Ho); now apply recordless_text|].
  exact (canonical_is_req_of tr _ _ _ Ho).
Qed.

Lemma recordless_walk_witness :
  exists o,
    (forall S parent,
        trafaret_parse S (Tuple [a_string; List_ an_int PNone (PInt 3)] 2) parent = inr o)
    /\ brief o = PStr "List([String(allow_blank: False), List([Integer()], max_length: 3)], 2)".
Proof.
  destruct (recordless_walk (Tuple [a_string; List_ an_int PNone (PInt 3)] 2) eq_refl)
    as (o & Ho & _).
  exists o. split; [exact Ho|].
  pose proof (Ho [] "") as E. vm_compute in E. injection E as <-. reflexivity.
Defined.
Lemma joinless_returns tr :
  forall S parent, has_join tr = false -> walk_returns S tr parent = true.
Proof.
  induction tr as [keys IH|a r mn mx|a b c d|a b c d| |ts len IH|e mn mx IH| |ts IH|vs| |k v IHk IHv|text]
    using trafaret_induction; intros S parent H; simpl in *; try reflexivity;
    try discriminate.
  - apply forallb_forall. intros k Hk. rewrite Forall_forall in IH.
    apply (IH k Hk). exact (existsb_false_In (fun k => has_join (trafaret k)) _ _ H Hk).
  - auto.
  - apply orb_false_iff in H. destruct H as (Hk & Hv). now rewrite IHk, IHv.
Qed.

(** The walk of a tree in which no [Tuple] and no [Or] occurs returns, under
    every path and every list of registered names, Records registered or
    not: only the joins of those two branches can raise. *)
Theorem joinless_walk_returns (tr : trafaret_) (S : list string) (parent : string) :
  has_join tr = false ->
  exists o, trafaret_parse S tr parent = inr o /\ canonical o = req_of tr.
Proof.
  intros H.
  destruct (proj2 (walk_returns_iff tr S parent) (joinless_returns tr S parent H))
    as (o & Ho).
  exists o. split; [exact Ho | exact (canonical_is_req_of tr _ _ _ Ho)].
Qed.

Lemma joinless_walk_returns_witness :
  exists o,
    trafaret_parse ["addr"] (Dict [field "addr" (List_ address PNone PNone)]) "" = inr o
    /\ canonical o =
         PDict [("addr", PList [PDict [("street", PStr "String"); ("zip", PStr "Integer")]])].
Proof.
  exact (joinless_walk_returns (Dict [field "addr" (List_ address PNone PNone)])
           ["addr"] "" eq_refl).
Defined.

(** A [Tuple] or an [Or] that has a Record among its slots raises
    [TypeError] when walked at a path whose last segment is not registered:
    the Record's brief is then a mapping, which [', '.join] refuses. *)
Theorem record_slot_raises (S : list string) (parent : string)
    (ts : list trafaret_) (keys : list Key) :
  In (Dict keys) ts ->
  is_in (last_segment parent) S = false ->
  trafaret_parse S (Or ts) parent = inl TypeError
  /\ forall len, trafaret_parse S (Tuple ts len) parent = inl TypeError.
Proof.
  intros Hin Hreg.
  assert (G : forall tr,
             walk_returns S tr parent = false -> trafaret_parse S tr parent = inl TypeError).
  { intros tr Hw. destruct (trafaret_parse S tr parent) as [[]|o] eqn:E; [reflexivity|].
    rewrite (proj1 (walk_returns_iff tr S parent) (ex_intro _ o E)) in Hw. discriminate. }
  assert (Hf : forallb (fun t => walk_returns S t parent && text_brief S parent t) ts = false).
  { destruct (forallb _ ts) eqn:E; [|reflexivity].
    rewrite forallb_forall in E. specialize (E _ Hin). simpl in E.
    rewrite Hreg, andb_false_r in E. discriminate. }
  split; [|intros len]; apply G; exact Hf.
Qed.

Lemma record_slot_raises_witness :
  trafaret_parse ["addr"] (Or [Null; address]) "user.home" = inl TypeError.
Proof.
  exact (proj1 (record_slot_raises ["addr"] "user.home" [Null; address]
                  [field "street" a_string; field "zip" an_int]
                  (or_intror (or_introl eq_refl)) eq_refl)).
Defined.

(** *** What the tables hold *)

Lemma last_binding_In q ts v :
  last_binding q ts = Some v -> exists t, In t ts /\ PyDict.get t q = Some v.
Proof.
  unfold last_binding.
  assert (G : forall acc,
             fold_left (fun acc t => match PyDict.get t q with
                                     | Some v => Some v
                                     | None => acc
                                     end) ts acc = Some v ->
             acc = Some v \/ exists t, In t ts /\ PyDict.get t q = Some v).
  { induction ts as [|t ts IH]; intros acc H; simpl in *; [auto|].
    apply IH in H. destruct H as [H|(t' & Ht' & H)].
    - destruct (PyDict.get t q) eqn:E; [|auto]. right. exists t. split; [now left|].
      congruence.
    - right. exists t'. split; [now right | exact H]. }
  intros H. destruct (G None H) as [H'|H']; [discriminate | exact H'].
Qed.

Lemma get_merges_from ts q v :
  Forall (fun t => NoDup (PyDict.keys t)) ts ->
  PyDict.get (fold_left merge ts []) q = Some v ->
  exists t, In t ts /\ PyDict.get t q = Some v.
Proof.
  intros HN H. rewrite (get_merges _ _ _ HN) in H.
  destruct (last_binding q ts) eqn:E; [|discriminate].
  injection H as ->. exact (last_binding_In _ _ _ E).
Qed.

Lemma Forall2_In_r {A B} (R : A -> B -> Prop) xs ys y :
  Forall2 R xs ys -> In y ys -> exists x, In x xs /\ R x y.
Proof.
  induction 1 as [|x y' xs ys Hxy HF IH]; intros Hin; [destruct Hin|].
  destruct Hin as [->|Hin].
  - exists x. split; [now left | exact Hxy].
  - destruct (IH Hin) as (x' & Hx' & HR). exists x'. split; [now right | exact HR].
Qed.

Lemma slot_entry S parent ts outs q v :
  Forall2 (slot_ok (trafaret_parse S) parent) ts outs ->
  PyDict.get (fold_left merge (map tables outs) []) q = Some v ->
  exists t o, In t ts /\ trafaret_parse S t parent = inr o
              /\ PyDict.get (tables o) q = Some v.
Proof.
  intros HF H. apply get_merges_from in H.
  - destruct H as (t & Ht & Hg). apply in_map_iff in Ht. destruct Ht as (o & <- & Ho).
    destruct (Forall2_In_r _ _ _ _ HF Ho) as (x & Hx & HR). now exists x, o.
  - apply (outs_NoDup _ _ _ HF). intros t o Hto. exact (tables_NoDup _ _ _ _ Hto).
Qed.

(** Whatever holds of the table a registered Record writes under its path,
    and holds at a path once it holds at the path of a field under it, holds
    of every entry of the tables a walk returns. *)
Lemma tables_entries S (P : string -> string -> pyval -> Prop) :
  (forall keys parent outs,
      is_in (last_segment parent) S = true ->
      Forall2 (child_ok (trafaret_parse S) parent) keys outs ->
      P parent parent (PList (rows_of keys outs))) ->
  (forall parent n q v, P (parent ++ "." ++ n) q v -> P parent q v) ->
  forall tr parent o q v,
    trafaret_parse S tr parent = inr o ->
    PyDict.get (tables o) q = Some v -> P parent q v.
Proof.
  intros HP Hup.
  induction tr as [keys IH|a r mn mx|a b c d|a b c d| |ts len IH|e mn mx IH| |ts IH|vs| |k v0 IHk IHv|text]
    using trafaret_induction; intros parent o q v H Hq;
    try (simpl in H; injection H as <-; discriminate Hq).
  - apply parse_Dict_inv in H. destruct H as (outs & HF & ->).
    rewrite tables_dict_finish in Hq.
    assert (Hm : PyDict.get (validation_tables
                               (dict_run (combine keys outs) dict_loop_init)) q = Some v ->
                 P parent q v).
    { rewrite validation_tables_run, (map_snd_combine tables _ _ _ HF).
      intros Hg. apply get_merges_from in Hg.
      - destruct Hg as (t & Ht & Hg). apply in_map_iff in Ht.
        destruct Ht as (o & <- & Ho).
        destruct (Forall2_In_r _ _ _ _ HF Ho) as (k & Hk & HR).
        rewrite Forall_forall in IH. apply (Hup parent (name k)).
        exact (IH k Hk _ _ _ _ HR Hg).
      - apply (outs_NoDup _ _ _ HF). intros k o Hko. exact (tables_NoDup _ _ _ _ Hko). }
    destruct (is_in (last_segment parent) S) eqn:Hreg; [|auto].
    rewrite PyDictFacts.get_set in Hq. destruct (String.eqb parent q) eqn:E; [|auto].
    apply String.eqb_eq in E. subst q. injection Hq as <-.
    rewrite trafarets_run. exact (HP keys parent outs Hreg HF).
  - rewrite parse_Tuple in H.
    destruct (fold_left _ ts _) as [e|st] eqn:E; [discriminate|].
    apply parse_slots_inv in E. destruct E as (outs & HF & _ & _ & _ & Ht).
    unfold tuple_finish in H. destruct (str_join _ _); [discriminate|].
    injection H as <-. unfold tables in Hq. simpl in Hq. rewrite Ht in Hq.
    destruct (slot_entry _ _ _ _ _ _ HF Hq) as (t & o & Hin & Ho & Hg).
    rewrite Forall_forall in IH. exact (IH t Hin _ _ _ _ Ho Hg).
  - rewrite parse_List in H. destruct (trafaret_parse S e parent) as [x|child] eqn:E;
      [discriminate|]. injection H as <-. exact (IH _ _ _ _ E Hq).
  - rewrite parse_Or in H.
    destruct (fold_left _ ts _) as [e|st] eqn:E; [discriminate|].
    apply parse_slots_inv in E. destruct E as (outs & HF & _ & _ & _ & Ht).
    unfold or_finish in H. destruct (str_join _ _); [discriminate|].
    injection H as <-. unfold tables in Hq. simpl in Hq. rewrite Ht in Hq.
    destruct (slot_entry _ _ _ _ _ _ HF Hq) as (t & o & Hin & Ho & Hg).
    rewrite Forall_forall in IH. exact (IH t Hin _ _ _ _ Ho Hg).
  - rewrite parse_Mapping in H.
    destruct (trafaret_parse S k parent); [discriminate|].
    destruct (trafaret_parse S v0 parent); [discriminate|].
    injection H as <-. discriminate Hq.
Qed.

Lemma below_field parent n q :
  q = parent ++ "." ++ n \/ prefix ((parent ++ "." ++ n) ++ ".") q = true ->
  prefix (parent ++ ".") q = true.
Proof.
  intros [->|H].
  - rewrite <- (append_assoc parent "." n). apply prefix_app.
  - apply (prefix_trans _ ((parent ++ "." ++ n) ++ ".")); [|exact H].
    rewrite <- (append_assoc parent "." n), append_assoc. apply prefix_app.
Qed.

Lemma row_written (k : Key) (child : outcome) :
  row (written k (walked child) (brief child)) = cells_of k child.
Proof.
  unfold row, cells_of. simpl. unfold get_default_value. simpl.
  now destruct (optional k).
Qed.

Lemma is_row_row (k : Key) : is_row (row k) = true.
Proof. reflexivity. Qed.

Lemma is_row_table_rows keys outs : is_row_table (PList (rows_of keys outs)) = true.
Proof.
  simpl. apply forallb_forall. intros r Hr. unfold rows_of in Hr.
  apply in_map_iff in Hr. destruct Hr as (ko & <- & _). apply is_row_row.
Qed.

(** Every entry of the tables a walk returns is the table of a registered
    Record: its path is the path the walk was made at or continues it after
    a dot, the last segment of its path is a registered name, and it is a
    list of rows of five texts each. *)
Theorem tables_hold_row_tables (S : list string) (tr : trafaret_) (parent : string)
    (o : outcome) (q : string) (v : pyval) :
  trafaret_parse S tr parent = inr o ->
  PyDict.get (tables o) q = Some v ->
  (q = parent \/ prefix (parent ++ ".") q = true)
  /\ is_in (last_segment q) S = true
  /\ is_row_table v = true.
Proof.
  apply (tables_entries S
           (fun parent q v => (q = parent \/ prefix (parent ++ ".") q = true)
                              /\ is_in (last_segment q) S = true
                              /\ is_row_table v = true)).
  - intros keys p outs Hreg _. split; [now left|].
    split; [exact Hreg | apply is_row_table_rows].
  - intros p n q' v' (Hq & Hr). split; [|exact Hr]. right. exact (below_field p n q' Hq).
Qed.

Lemma tables_hold_row_tables_witness :
  (".home.addr" = "" \/ prefix ("" ++ ".") ".home.addr" = true)
  /\ is_in (last_segment ".home.addr") ["addr"] = true
  /\ is_row_table
       (PList [PList [PStr "street"; PStr "N/A"; PStr "False";
                      PStr "String(allow_blank: False)"; PStr "None"];
               PList [PStr "zip"; PStr "N/A"; PStr "False";
                      PStr "Integer()"; PStr "None"]]) = true.
Proof.
  exact (tables_hold_row_tables ["addr"]
           (Dict [field "home" (Dict [field "addr" address])]) "" _
           ".home.addr" _ eq_refl eq_refl).
Defined.

(** The table a registered Record writes has one row per key, in the order
    of the keys and also for keys of one name: the name, the text of the
    default, ['True'] or ['False'] for [optional], the text of the brief of
    the key's validator, the text of the description. *)
Theorem record_rows (S : list string) (keys : list Key) (parent : string) (o : outcome) :
  trafaret_parse S (Dict keys) parent = inr o ->
  is_in (last_segment parent) S = true ->
  exists outs,
    Forall2 (fun k c => trafaret_parse S (trafaret k) (parent ++ "." ++ name k) = inr c)
            keys outs
    /\ PyDict.get (tables o) parent =
         Some (PList (map (fun kc => cells_of (fst kc) (snd kc)) (combine keys outs)))
    /\ List.length (map (fun kc => cells_of (fst kc) (snd kc)) (combine keys outs))
       = List.length keys.
Proof.
  intros H Hreg. apply parse_Dict_inv in H. destruct H as (outs & HF & ->).
  exists outs. split; [exact HF|]. split.
  - rewrite tables_dict_finish, Hreg, PyDictFacts.get_set_same, trafarets_run.
    simpl. do 2 f_equal. apply map_ext. intros [k c]. apply row_written.
  - rewrite length_map, length_combine, <- (Forall2_length HF). apply Nat.min_id.
Qed.

Lemma record_rows_witness :
  exists o,
    trafaret_parse ["addr"]
      (Dict [field "zip" an_int; field "zip" a_string]) "addr" = inr o
    /\ PyDict.get (tables o) "addr" =
         Some (PList [PList [PStr "zip"; PStr "N/A"; PStr "False";
                             PStr "Integer()"; PStr "None"];
                      PList [PStr "zip"; PStr "N/A"; PStr "False";
                             PStr "String(allow_blank: False)"; PStr "None"]])
    /\ canonical o = PDict [("zip", PStr "String")].
Proof.
  eexists. split; [reflexivity|].
  destruct (record_rows ["addr"] [field "zip" an_int; field "zip" a_string] "addr" _
              eq_refl eq_refl) as (outs & HF & Hg & _).
  split; [|reflexivity]. rewrite Hg.
  inversion HF as [|k c ks cs Hc HF']; subst. inversion HF' as [|k' c' ks' cs' Hc' HF'']; subst.
  inversion HF''; subst. simpl in Hc, Hc'. injection Hc as <-. injection Hc' as <-.
  reflexivity.
Defined.

(** *** Registration goes by the last segment of the path *)

Lemma split_dot_nonempty cur s : split_dot cur s <> [].
Proof.
  revert cur. induction s as [|c s IH]; intros cur; simpl; [discriminate|].
  destruct (Ascii.eqb c "."); [discriminate | apply IH].
Qed.

Lemma last_cons_nonempty {A} (x : A) l d : l <> [] -> last (x :: l) d = last l d.
Proof. destruct l; [congruence | reflexivity]. Qed.

Lemma last_split_child cur p n d :
  last (split_dot cur (p ++ "." ++ n)) d = last (split_dot "" n) d.
Proof.
  revert cur. induction p as [|c p IH]; intros cur.
  - simpl. apply last_cons_nonempty, split_dot_nonempty.
  - change (String c p ++ "." ++ n) with (String c (p ++ "." ++ n)).
    cbn [split_dot]. destruct (Ascii.eqb c ".").
    + rewrite last_cons_nonempty by apply split_dot_nonempty. apply IH.
    + apply IH.
Qed.

Lemma split_dot_dotless cur n :
  has_char "." n = false -> split_dot cur n = [cur ++ n].
Proof.
  revert cur. induction n as [|c n IH]; intros cur H.
  - simpl. f_equal. induction cur as [|x cur IHc]; simpl; congruence.
  - unfold has_char in H. cbn [list_ascii_of_string existsb] in H.
    apply orb_false_iff in H. destruct H as (Hc & Hn).
    cbn [split_dot]. rewrite Ascii.eqb_sym, Hc. rewrite (IH _ Hn).
    now rewrite append_assoc.
Qed.

(** Whether a Record is registered depends on the name of the field that
    holds it, not on where the field sits: the last segment of a child path
    is that of the field's name, which is the name itself when it has no dot.
    A Record under a field of a registered dot-free name has its path as
    brief and a table under it; under a field of another dot-free name its
    brief is its requirement schema and it has no table under its path. *)
Theorem registered_by_field_name :
  (forall parent n, last_segment (parent ++ "." ++ n) = last_segment n)
  /\ (forall n, has_char "." n = false -> last_segment n = n)
  /\ (forall S parent n fields o,
        has_char "." n = false ->
        trafaret_parse S (Dict fields) (parent ++ "." ++ n) = inr o ->
        (is_in n S = true ->
         brief o = PStr (parent ++ "." ++ n)
         /\ PyDict.get (tables o) (parent ++ "." ++ n) <> None)
        /\ (is_in n S = false ->
            brief o = canonical o
            /\ PyDict.get (tables o) (parent ++ "." ++ n) = None)).
Proof.
  assert (H1 : forall parent n, last_segment (parent ++ "." ++ n) = last_segment n).
  { intros parent n. unfold last_segment. apply last_split_child. }
  assert (H2 : forall n, has_char "." n = false -> last_segment n = n).
  { intros n H. unfold last_segment. now rewrite (split_dot_dotless "" n H). }
  split; [exact H1|]. split; [exact H2|].
  intros S parent n fields o Hn H. split; intros Hreg.
  - destruct (registered_record_entry S fields _ o H) as (rows & Hg & Hb).
    + now rewrite H1, (H2 n Hn).
    + split; [exact Hb | congruence].
  - split.
    + apply parse_Dict_inv in H. destruct H as (outs & _ & ->).
      rewrite brief_dict_finish, canonical_dict_finish, H1, (H2 n Hn), Hreg. reflexivity.
    + destruct (PyDict.get (tables o) (parent ++ "." ++ n)) as [v|] eqn:E; [|reflexivity].
      pose proof (tables_entries S (fun _ q _ => is_in (last_segment q) S = true)
                    (fun _ _ _ Hr _ => Hr) (fun _ _ _ _ Hr => Hr) _ _ _ _ _ H E) as Hr.
      cbv beta in Hr. rewrite H1, (H2 n Hn), Hreg in Hr. discriminate.
Qed.

Lemma registered_by_field_name_witness :
  exists o,
    trafaret_parse ["addr"] address "user.home.addr" = inr o
    /\ brief o = PStr "user.home.addr".
Proof.
  eexists. split; [reflexivity|].
  exact (proj1 (proj1 (proj2 (proj2 registered_by_field_name) ["addr"] "user.home" "addr"
                         [field "street" a_string; field "zip" an_int] _ eq_refl eq_refl)
                  eq_refl)).
Defined.

(** *** The constraints a brief lists *)






(** *** The briefs of [Tuple] and [Or] *)

Lemma str_items_texts_of l : str_items (map PStr l) = Some l.
Proof. induction l as [|s l IH]; simpl; [reflexivity | now rewrite IH]. Qed.

Lemma slots_return S keep parent ts outs :
  Forall2 (fun t o => trafaret_parse S t parent = inr o) ts outs ->
  exists st,
    fold_left (slot_turn (trafaret_parse S) keep parent) ts (inr slot_loop_init) = inr st
    /\ values st = map brief outs
    /\ req_data st = map (fun o => keep (canonical o)) outs.
Proof.
  intros HF. exists (slot_run keep outs slot_loop_init). split.
  - apply slot_loop_returns. now exists outs.
  - now rewrite values_run, req_data_run.
Qed.

(** A [Tuple] whose slots' walks return with texts as briefs is documented
    as ['List([b1, b2, ...], length)'], the briefs of its slots in order,
    and its requirement schema is the list of theirs. *)
Theorem tuple_walk (S : list string) (parent : string) (ts : list trafaret_)
    (len : Z) (outs : list outcome) (texts : list string) :
  Forall2 (fun t o => trafaret_parse S t parent = inr o) ts outs ->
  map brief outs = map PStr texts ->
  exists o,
    trafaret_parse S (Tuple ts len) parent = inr o
    /\ brief o = PStr ("List([" ++ String.concat ", " texts ++ "], " ++ str_of_Z len ++ ")")
    /\ canonical o = PList (map canonical outs).
Proof.
  intros HF Hb. destruct (slots_return S keep_req parent ts outs HF) as (st & E & Hv & Hr).
  rewrite parse_Tuple, E. unfold tuple_finish, str_join.
  rewrite Hv, Hb, str_items_texts_of. eexists. split; [reflexivity|].
  split; [reflexivity|]. unfold canonical. simpl. rewrite Hr. reflexivity.
Qed.

Lemma tuple_walk_witness :
  exists o,
    trafaret_parse [] (Tuple [a_string; an_int] 2) "" = inr o
    /\ brief o = PStr "List([String(allow_blank: False), Integer()], 2)"
    /\ canonical o = PList [PStr "String"; PStr "Integer"].
Proof.
  apply (tuple_walk [] "" [a_string; an_int] 2
           [(a_string, PStr "String(allow_blank: False)", PStr "String", []);
            (an_int, PStr "Integer()", PStr "Integer", [])]
           ["String(allow_blank: False)"; "Integer()"]).
  - repeat constructor.
  - reflexivity.
Defined.

(** An [Or] whose alternatives' walks return with texts as briefs is
    documented as ['Or(b1, b2, ...)'], and its requirement schema is the
    text of theirs, joined with [' or ']. *)
Theorem or_walk (S : list string) (parent : string) (ts : list trafaret_)
    (outs : list outcome) (texts : list string) :
  Forall2 (fun t o => trafaret_parse S t parent = inr o) ts outs ->
  map brief outs = map PStr texts ->
  exists o,
    trafaret_parse S (Or ts) parent = inr o
    /\ brief o = PStr ("Or(" ++ String.concat ", " texts ++ ")")
    /\ canonical o =
         PStr (String.concat " or " (map (fun c => py_str (canonical c)) outs)).
Proof.
  intros HF Hb. destruct (slots_return S keep_str parent ts outs HF) as (st & E & Hv & Hr).
  rewrite parse_Or, E. unfold or_finish, str_join.
  rewrite Hv, Hb, str_items_texts_of. eexists. split; [reflexivity|].
  split; [reflexivity|]. unfold canonical. simpl. rewrite Hr, map_map. reflexivity.
Qed.

Lemma or_walk_witness :
  exists o,
    trafaret_parse [] (Or [List_ an_int PNone PNone; Null]) "" = inr o
    /\ brief o = PStr "Or(List([Integer()], ), Null)"
    /\ canonical o = PStr "['Integer'] or Null".
Proof.
  apply (or_walk [] "" [List_ an_int PNone PNone; Null]
           [(List_ an_int PNone PNone, PStr "List([Integer()], )", PList [PStr "Integer"], []);
            (Null, PStr "Null", PStr "Null", [])]
           ["List([Integer()], )"; "Null"]).
  - repeat constructor.
  - reflexivity.
Defined.

(** *** What the walk writes *)

Lemma erase_walked tr :
  forall S parent o, trafaret_parse S tr parent = inr o -> erase (walked o) = erase tr.
Proof.
  induction tr as [keys IH|a r mn mx|a b c d|a b c d| |ts len IH|e mn mx IH| |ts IH|vs| |k v IHk IHv|text]
    using trafaret_induction; intros S parent o H;
    try (simpl in H; injection H as <-; reflexivity).
  - apply parse_Dict_inv in H. destruct H as (outs & HF & ->).
    rewrite walked_dict_finish, keys_done_run. cbn [app dict_loop_init keys_done erase].
    f_equal. rewrite map_map.
    apply (map_combine_along _ _
             (fun k => {| name := name k; default := default k; optional := optional k;
                          value := None; description := description k;
                          trafaret := erase (trafaret k) |}) _ _ HF).
    eapply Forall_impl; [|exact IH]. intros k Hk o Ho. cbn [fst snd written].
    cbn [name default optional description trafaret]. f_equal. exact (Hk _ _ _ Ho).
  - rewrite parse_Tuple in H.
    destruct (fold_left _ ts _) as [e|st] eqn:E; [discriminate|].
    apply parse_slots_inv in E. destruct E as (outs & HF & Hs & _).
    unfold tuple_finish in H. destruct (str_join _ _); [discriminate|].
    injection H as <-. unfold walked. cbn [fst erase]. rewrite Hs, map_map. f_equal.
    apply (map_along _ _ _ _ _ HF). eapply Forall_impl; [|exact IH].
    intros t Ht o Ho. exact (Ht _ _ _ Ho).
  - rewrite parse_List in H. destruct (trafaret_parse S e parent) as [x|child] eqn:E;
      [discriminate|]. injection H as <-. unfold walked, list_finish. cbn [fst erase].
    f_equal. exact (IH _ _ _ E).
  - rewrite parse_Or in H.
    destruct (fold_left _ ts _) as [e|st] eqn:E; [discriminate|].
    apply parse_slots_inv in E. destruct E as (outs & HF & Hs & _).
    unfold or_finish in H. destruct (str_join _ _); [discriminate|].
    injection H as <-. unfold walked. cbn [fst erase]. rewrite Hs, map_map. f_equal.
    apply (map_along _ _ _ _ _ HF). eapply Forall_impl; [|exact IH].
    intros t Ht o Ho. exact (Ht _ _ _ Ho).
  - rewrite parse_Mapping in H.
    destruct (trafaret_parse S k parent) as [x|ok] eqn:Ek; [discriminate|].
    destruct (trafaret_parse S v parent) as [x|ov] eqn:Ev; [discriminate|].
    injection H as <-. unfold walked, mapping_finish. cbn [fst erase].
    f_equal; [exact (IHk _ _ _ Ek) | exact (IHv _ _ _ Ev)].
Qed.

Definition same_dict_loop (acc acc' : exn + dict_loop) : Prop :=
  match acc, acc' with
  | inr st, inr st' =>
      trafarets st = trafarets st' /\ req_schema st = req_schema st'
      /\ validation_tables st = validation_tables st'
  | inl e, inl e' => e = e'
  | _, _ => False
  end.

Definition same_slot_loop (acc acc' : exn + slot_loop) : Prop :=
  match acc, acc' with
  | inr st, inr st' =>
      values st = values st' /\ req_data st = req_data st'
      /\ val_tables st = val_tables st'
  | inl e, inl e' => e = e'
  | _, _ => False
  end.

Lemma dict_loop_same S parent keys :
  Forall (fun k => forall tr' S parent,
            erase (trafaret k) = erase tr' ->
            same_output (trafaret_parse S (trafaret k) parent)
                        (trafaret_parse S tr' parent)) keys ->
  forall keys' acc acc',
    erase (Dict keys) = erase (Dict keys') ->
    same_dict_loop acc acc' ->
    same_dict_loop (fold_left (dict_turn (trafaret_parse S) parent) keys acc)
                   (fold_left (dict_turn (trafaret_parse S) parent) keys' acc').
Proof.
  induction 1 as [|k keys Hk _ IH]; intros keys' acc acc' He Hacc;
    destruct keys' as [|k' keys']; try discriminate He; [exact Hacc|].
  simpl in He. injection He. intros Hrest Ht Hds Ho Hd Hn.
  cbn [fold_left]. apply IH; [cbn [erase]; now rewrite Hrest|].
  destruct acc as [e|st], acc' as [e'|st']; try contradiction; [exact Hacc|].
  destruct Hacc as (H1 & H2 & H3). unfold dict_turn. rewrite <- Hn.
  specialize (Hk (trafaret k') S (parent ++ "." ++ name k) Ht).
  destruct (trafaret_parse S (trafaret k) _) as [e|c],
           (trafaret_parse S (trafaret k') _) as [e'|c']; try contradiction; [exact Hk|].
  destruct Hk as (Hb & Hc & Htb). unfold same_dict_loop, dict_step.
  cbn [trafarets req_schema validation_tables].
  rewrite !row_written, H1, H2, H3, Hc, Htb, <- Hn. repeat split.
  do 2 f_equal. unfold cells_of, get_default_value. now rewrite Hn, Hd, Ho, Hds, Hb.
Qed.

Lemma slot_loop_same S keep parent ts :
  Forall (fun t => forall tr' S parent,
            erase t = erase tr' ->
            same_output (trafaret_parse S t parent) (trafaret_parse S tr' parent)) ts ->
  forall ts' acc acc',
    map erase ts = map erase ts' ->
    same_slot_loop acc acc' ->
    same_slot_loop (fold_left (slot_turn (trafaret_parse S) keep parent) ts acc)
                   (fold_left (slot_turn (trafaret_parse S) keep parent) ts' acc').
Proof.
  induction 1 as [|t ts Ht _ IH]; intros ts' acc acc' He Hacc;
    destruct ts' as [|t' ts']; try discriminate He; [exact Hacc|].
  cbn [map] in He. injection He as Het Hrest.
  cbn [fold_left]. apply IH; [exact Hrest|].
  destruct acc as [e|st], acc' as [e'|st']; try contradiction; [exact Hacc|].
  destruct Hacc as (H1 & H2 & H3). unfold slot_turn.
  specialize (Ht t' S parent Het).
  destruct (trafaret_parse S t parent) as [e|c],
           (trafaret_parse S t' parent) as [e'|c']; try contradiction; [exact Ht|].
  destruct Ht as (Hb & Hc & Htb). unfold same_slot_loop, slot_step.
  cbn [values req_data val_tables]. now rewrite H1, H2, H3, Hb, Hc, Htb.
Qed.

(** What a walk returns does not depend on the [value] attributes the keys
    hold when it starts. *)
Lemma stale_values_ignored tr :
  forall tr' S parent,
    erase tr = erase tr' ->
    same_output (trafaret_parse S tr parent) (trafaret_parse S tr' parent).
Proof.
  induction tr as [keys IH|a r mn mx|a b c d|a b c d| |ts len IH|e mn mx IH| |ts IH|vs| |k v IHk IHv|text]
    using trafaret_induction; intros tr' S parent He;
    destruct tr' as [keys'|? ? ? ?|? ? ? ?|? ? ? ?| |ts' len'|e' mn' mx'| |ts'|?| |k' v'|?];
    try discriminate He;
    try (simpl in He; rewrite <- He; simpl; repeat split; fail);
    try (simpl; repeat split; fail).
  - rewrite !parse_Dict.
    pose proof (dict_loop_same S parent keys IH keys' (inr dict_loop_init)
                  (inr dict_loop_init) He (conj eq_refl (conj eq_refl eq_refl))) as H.
    destruct (fold_left _ keys _) as [e|st], (fold_left _ keys' _) as [e'|st'];
      try contradiction; [exact H|].
    destruct H as (H1 & H2 & H3). unfold same_output.
    rewrite !brief_dict_finish, !canonical_dict_finish, !tables_dict_finish.
    now rewrite H1, H2, H3.
  - simpl in He. injection He. intros Hlen Hts. subst len'. rewrite !parse_Tuple.
    pose proof (slot_loop_same S keep_req parent ts IH ts' (inr slot_loop_init)
                  (inr slot_loop_init) Hts (conj eq_refl (conj eq_refl eq_refl))) as H.
    destruct (fold_left _ ts _) as [e|st], (fold_left _ ts' _) as [e'|st'];
      try contradiction; [exact H|].
    destruct H as (H1 & H2 & H3). unfold tuple_finish. rewrite H1.
    destruct (str_join ", " (values st')); simpl; [reflexivity|].
    unfold brief, canonical, tables. simpl. now rewrite H2, H3.
  - simpl in He. injection He. intros Hmx Hmn Hel. subst. rewrite !parse_List.
    specialize (IH e' S parent Hel).
    destruct (trafaret_parse S e parent) as [x|c],
             (trafaret_parse S e' parent) as [x'|c']; try contradiction; [exact IH|].
    destruct IH as (Hb & Hc & Ht). unfold same_output, list_finish, brief, canonical, tables.
    cbn [fst snd]. unfold brief, canonical, tables in Hb, Hc, Ht.
    rewrite Hb, Hc, Ht. repeat split.
  - simpl in He. injection He. intros Hts. rewrite !parse_Or.
    pose proof (slot_loop_same S keep_str parent ts IH ts' (inr slot_loop_init)
                  (inr slot_loop_init) Hts (conj eq_refl (conj eq_refl eq_refl))) as H.
    destruct (fold_left _ ts _) as [e|st], (fold_left _ ts' _) as [e'|st'];
      try contradiction; [exact H|].
    destruct H as (H1 & H2 & H3). unfold or_finish. rewrite H1.
    destruct (str_join ", " (values st')); simpl; [reflexivity|].
    unfold brief, canonical, tables. simpl. now rewrite H2, H3.
  - simpl in He. injection He. intros Hv Hk. rewrite !parse_Mapping.
    specialize (IHk k' S parent Hk). specialize (IHv v' S parent Hv).
    destruct (trafaret_parse S k parent) as [x|ck],
             (trafaret_parse S k' parent) as [x'|ck']; try contradiction; [exact IHk|].
    destruct (trafaret_parse S v parent) as [x|cv],
             (trafaret_parse S v' parent) as [x'|cv']; try contradiction; [exact IHv|].
    destruct IHk as (Hbk & Hck & _). destruct IHv as (Hbv & Hcv & _).
    unfold same_output, mapping_finish, brief, canonical, tables. cbn [fst snd].
    unfold brief, canonical in Hbk, Hck, Hbv, Hcv. rewrite Hbk, Hck, Hbv, Hcv.
    repeat split.
Qed.

(** The walk changes nothing in the tree but the [value] attribute of the
    keys, at every depth; and what it returns does not depend on the [value]
    attributes the keys hold when it starts: two trees that differ in those
    alone are walked to the same brief, requirement schema and tables, or
    both raise. *)
Theorem walk_writes_only_value :
  (forall S tr parent o,
      trafaret_parse S tr parent = inr o -> erase (walked o) = erase tr)
  /\ (forall S tr tr' parent,
        erase tr = erase tr' ->
        same_output (trafaret_parse S tr parent) (trafaret_parse S tr' parent)).
Proof.
  split.
  - intros S tr parent o. apply erase_walked.
  - intros S tr tr' parent. apply stale_values_ignored.
Qed.

Lemma walk_writes_only_value_witness :
  same_output
    (trafaret_parse ["addr"] (Dict [field "addr" address]) "user")
    (trafaret_parse ["addr"]
       (Dict [{| name := "addr"; default := _empty; optional := false;
                 value := Some (PStr "left by an earlier walk");
                 description := PNone; trafaret := address |}]) "user").
Proof.
  exact (proj2 walk_writes_only_value ["addr"] _ _ "user" eq_refl).
Defined.

End WalkerShape.

(** ** The table map, path by path *)

Module WalkerTables.
Import Walker WalkerFacts WalkerShape.











End WalkerTables.
